(** * OpenFermion, [examples/performance_benchmarks.py]

    A shallow embedding of the synthetic Hamiltonian generator
    [artificial_molecular_operator] and of the term construction of
    [benchmark_fermion_math_and_normal_order], with the properties of
    the generated coefficient arrays and operator strings.

    The embedding follows the Python text: [numpy] arrays are flat
    C-ordered buffers with a shape, indexing is bounds-checked and may
    raise, the ambient [numpy.random] generator is a state threaded
    through every draw, [for] loops are folds over [range], and the
    [while] loops of the benchmark run on fuel. *)

From Stdlib Require Import Arith Lia.
From stdpp Require Import base list gmap.

Set Default Proof Using "Type".

(** ** What the program takes from [numpy] *)

(** The float type with the value [numpy.zeros] fills in, and the
    global generator of [numpy.random]: [randn ()] and [randint high]
    each return a sample and the advanced generator state.  [randint]
    is only called through [np_randint] below, which rejects an empty
    range the way numpy does. *)
Class Numpy : Type := {
  float : Type;
  zero : float;
  rng : Type;
  randn : rng -> float * rng;
  randint : nat -> rng -> nat * rng
}.

Inductive exn : Set := IndexError | ValueError.

(** The outcome of running a piece of the program: a value, a raised
    exception, or fuel exhausted inside a [while] loop. *)
Inductive outcome (A : Type) : Type :=
| Ret (a : A)
| Raise (e : exn)
| OutOfFuel.
Arguments Ret {A} a.
Arguments Raise {A} e.
Arguments OutOfFuel {A}.

(** State and exception monad over a state [S]. *)
Definition M (S A : Type) : Type := S -> outcome (A * S).

Definition ret {S A} (a : A) : M S A := fun st => Ret (a, st).

Definition bind {S A B} (m : M S A) (k : A -> M S B) : M S B :=
  fun st =>
    match m st with
    | Ret (a, st') => k a st'
    | Raise e => Raise e
    | OutOfFuel => OutOfFuel
    end.

Definition out_of_fuel {S A} : M S A := fun _ => OutOfFuel.

#[global] Instance M_ret {S} : MRet (M S) := @ret S.
#[global] Instance M_bind {S} : MBind (M S) := fun A B k m => bind m k.

(** [for i in l: body i] *)
Fixpoint for_each {S} (l : list nat) (body : nat -> M S unit) : M S unit :=
  match l with
  | [] => ret tt
  | i :: l' => body i ;; for_each l' body
  end.

(** [for i in range(n): body i] *)
Definition for_range {S} (n : nat) (body : nat -> M S unit) : M S unit :=
  for_each (seq 0 n) body.

Section Program.
Context {NP : Numpy}.

(** ** Arrays *)

(** A [numpy.ndarray] of floats: its shape and its C-ordered buffer. *)
Record ndarray : Type := { shape : list nat; data : list float }.

(** Offset of a multi-index in the buffer; [None] when the index has
    the wrong number of axes or leaves the bounds of one. *)
Fixpoint ravel (sh idx : list nat) (acc : nat) : option nat :=
  match sh, idx with
  | [], [] => Some acc
  | d :: sh', i :: idx' =>
      if i <? d then ravel sh' idx' (acc * d + i) else None
  | _, _ => None
  end.

(** [numpy.zeros(sh, float)] *)
Definition zeros (sh : list nat) : ndarray :=
  {| shape := sh; data := replicate (foldr Nat.mul 1 sh) zero |}.

(** [a[idx]] *)
Definition getitem (a : ndarray) (idx : list nat) : outcome float :=
  match ravel (shape a) idx 0 with
  | Some k =>
      match data a !! k with
      | Some v => Ret v
      | None => Raise IndexError
      end
  | None => Raise IndexError
  end.

(** [a[idx] = v] *)
Definition setitem (a : ndarray) (idx : list nat) (v : float)
  : outcome ndarray :=
  match ravel (shape a) idx 0 with
  | Some k =>
      if k <? length (data a)
      then Ret {| shape := shape a; data := <[k:=v]> (data a) |}
      else Raise IndexError
  | None => Raise IndexError
  end.

(** ** The generator *)

(** What [InteractionOperator(constant, one_body, two_body)] holds. *)
Record InteractionOperator : Type := {
  constant : float;
  one_body_tensor : ndarray;
  two_body_tensor : ndarray
}.

(** The mutable state of [artificial_molecular_operator]: the global
    generator and the two local arrays. *)
Record gen_state : Type := {
  gs_rng : rng;
  one_body_coefficients : ndarray;
  two_body_coefficients : ndarray
}.

(** [numpy.random.randn()] *)
Definition np_randn : M gen_state float := fun st =>
  let (v, g) := randn (gs_rng st) in
  Ret (v, {| gs_rng := g;
             one_body_coefficients := one_body_coefficients st;
             two_body_coefficients := two_body_coefficients st |}).

Definition get_one_body (idx : list nat) : M gen_state float := fun st =>
  match getitem (one_body_coefficients st) idx with
  | Ret v => Ret (v, st)
  | Raise e => Raise e
  | OutOfFuel => OutOfFuel
  end.

Definition set_one_body (idx : list nat) (v : float) : M gen_state unit :=
  fun st =>
  match setitem (one_body_coefficients st) idx v with
  | Ret a => Ret (tt, {| gs_rng := gs_rng st;
                         one_body_coefficients := a;
                         two_body_coefficients := two_body_coefficients st |})
  | Raise e => Raise e
  | OutOfFuel => OutOfFuel
  end.

Definition get_two_body (idx : list nat) : M gen_state float := fun st =>
  match getitem (two_body_coefficients st) idx with
  | Ret v => Ret (v, st)
  | Raise e => Raise e
  | OutOfFuel => OutOfFuel
  end.

Definition set_two_body (idx : list nat) (v : float) : M gen_state unit :=
  fun st =>
  match setitem (two_body_coefficients st) idx v with
  | Ret a => Ret (tt, {| gs_rng := gs_rng st;
                         one_body_coefficients := one_body_coefficients st;
                         two_body_coefficients := a |})
  | Raise e => Raise e
  | OutOfFuel => OutOfFuel
  end.

(** Lines 37-40, the one-body terms.  The guard is the source's
    [(p <= p) and (p % 2 == q % 2)]. *)
Definition one_body_terms (p q : nat) : M gen_state unit :=
  if (p <=? p) && (p mod 2 =? q mod 2) then
    v ← np_randn;
    set_one_body [p; q] v ;;
    w ← get_one_body [p; q];
    set_one_body [q; p] w
  else ret tt.

(** Lines 50-63: [true] when the block "Identify and skip one of the
    complex conjugates" reaches one of its [continue]s. *)
Definition skip_conjugate (p q r s : nat) : bool :=
  if bool_decide ([p; q; r; s] ≠ [s; r; q; p]) then
    let unique_indices := size (list_to_set [p; q; r; s] : gset nat) in
    if unique_indices =? 4 then
      if Nat.min r s <=? Nat.min p q then true else false
    else if unique_indices =? 2 then
      if q <? p then true else false
    else false
  else false.

(** Lines 46-68, the body of the innermost loop. *)
Definition two_body_terms (p q r s : nat) : M gen_state unit :=
  if (p =? q) || (r =? s) then ret tt
  else if skip_conjugate p q r s then ret tt
  else
    v ← np_randn;
    set_two_body [p; q; r; s] v ;;
    w ← get_two_body [p; q; r; s];
    set_two_body [s; r; q; p] w.

(** Lines 34-68. *)
Definition generate_integrals (n_qubits : nat) : M gen_state unit :=
  for_range n_qubits (fun p =>
    for_range n_qubits (fun q =>
      one_body_terms p q ;;
      for_range n_qubits (fun r =>
        for_range n_qubits (fun s =>
          two_body_terms p q r s)))).

(** [artificial_molecular_operator(n_qubits)], as a computation on the
    global generator. *)
Definition artificial_molecular_operator (n_qubits : nat)
  : M rng InteractionOperator := fun g =>
  let (c, g1) := randn g in
  let st := {| gs_rng := g1;
               one_body_coefficients := zeros [n_qubits; n_qubits];
               two_body_coefficients :=
                 zeros [n_qubits; n_qubits; n_qubits; n_qubits] |} in
  match generate_integrals n_qubits st with
  | Ret (_, st') =>
      Ret ({| constant := c;
              one_body_tensor := one_body_coefficients st';
              two_body_tensor := two_body_coefficients st' |}, gs_rng st')
  | Raise e => Raise e
  | OutOfFuel => OutOfFuel
  end.

(** ** The operator strings of the arithmetic benchmark *)

(** A ladder operator [(mode, raise/lower flag)]. *)
Definition operator : Type := nat * nat.

(** What [FermionOperator(tuple(operators), coefficient)] holds. *)
Record FermionTerm : Type := {
  term_operators : list operator;
  term_coefficient : float
}.

(** The mutable state of [benchmark_fermion_math_and_normal_order]:
    the global generator and the two local lists. *)
Record bench_state : Type := {
  bs_rng : rng;
  operators_a : list operator;
  operators_b : list operator
}.

(** The two operator strings are built by the same text; [which]
    selects the list a statement works on. *)
Inductive which : Set := TermA | TermB.

Definition operators_of (w : which) (st : bench_state) : list operator :=
  match w with
  | TermA => operators_a st
  | TermB => operators_b st
  end.

(** [numpy.random.randint(high)]: an empty range is a [ValueError]. *)
Definition np_randint (high : nat) : M bench_state nat := fun st =>
  if high =? 0 then Raise ValueError
  else
    let (k, g) := randint high (bs_rng st) in
    Ret (k, {| bs_rng := g;
               operators_a := operators_a st;
               operators_b := operators_b st |}).

(** [(numpy.random.randint(n_qubits), numpy.random.randint(2))] *)
Definition random_operator (n_qubits : nat) : M bench_state operator :=
  mode ← np_randint n_qubits;
  flag ← np_randint 2;
  mret (mode, flag).

(** [operators[-1]] *)
Definition last_operator (w : which) : M bench_state operator := fun st =>
  match last (operators_of w st) with
  | Some op => Ret (op, st)
  | None => Raise IndexError
  end.

(** [operators += [op]] *)
Definition append_operator (w : which) (op : operator)
  : M bench_state unit := fun st =>
  Ret (tt,
       match w with
       | TermA => {| bs_rng := bs_rng st;
                     operators_a := operators_a st ++ [op];
                     operators_b := operators_b st |}
       | TermB => {| bs_rng := bs_rng st;
                     operators_a := operators_a st;
                     operators_b := operators_b st ++ [op] |}
       end).

(** Lines 128-130 (and 136-138):
    [while op == operators[-1]: op = (randint(n_qubits), randint(2))],
    returning the [op] the loop leaves with.  Each unit of fuel pays
    for one execution of the loop body. *)
Fixpoint redraw_while_equal (fuel n_qubits : nat) (w : which) (op : operator)
  : M bench_state operator :=
  prev ← last_operator w;
  if bool_decide (op = prev) then
    match fuel return M bench_state operator with
    | 0 => out_of_fuel
    | S fuel' =>
        op' ← random_operator n_qubits;
        redraw_while_equal fuel' n_qubits w op'
    end
  else mret op.

(** Lines 126-131 (and 134-139): draw, redraw on collision, append. *)
Definition next_operator (fuel n_qubits : nat) (w : which)
  : M bench_state unit :=
  op ← random_operator n_qubits;
  op ← redraw_while_equal fuel n_qubits w op;
  append_operator w op.

(** [float(numpy.random.randn())] *)
Definition bench_randn : M bench_state float := fun st =>
  let (v, g) := randn (bs_rng st) in
  Ret (v, {| bs_rng := g;
             operators_a := operators_a st;
             operators_b := operators_b st |}).

(** Lines 119-122, the two one-element lists the loop starts from. *)
Definition initial_operators (n_qubits : nat) : M rng bench_state := fun g =>
  if n_qubits =? 0 then Raise ValueError
  else
    let (ma, g1) := randint n_qubits g in
    let (fa, g2) := randint 2 g1 in
    let (mb, g3) := randint n_qubits g2 in
    let (fb, g4) := randint 2 g3 in
    Ret ({| bs_rng := g4;
            operators_a := [(ma, fa)];
            operators_b := [(mb, fb)] |}, g4).

(** Lines 119-145 of [benchmark_fermion_math_and_normal_order]: the two
    random terms [fermion_term_a] and [fermion_term_b].  What follows
    in the source (the sum, the power, the normal ordering and their
    timing) is the work of the operator library and the clock. *)
Definition benchmark_fermion_terms (fuel n_qubits term_length : nat)
  : M rng (FermionTerm * FermionTerm) := fun g =>
  match initial_operators n_qubits g with
  | Ret (st0, _) =>
      match
        (for_range term_length (fun operator_number =>
           next_operator fuel n_qubits TermA ;;
           next_operator fuel n_qubits TermB) ;;
         ca ← bench_randn;
         cb ← bench_randn;
         mret (ca, cb)) st0
      with
      | Ret ((ca, cb), st) =>
          Ret (({| term_operators := operators_a st; term_coefficient := ca |},
                {| term_operators := operators_b st; term_coefficient := cb |}),
               bs_rng st)
      | Raise e => Raise e
      | OutOfFuel => OutOfFuel
      end
  | Raise e => Raise e
  | OutOfFuel => OutOfFuel
  end.

End Program.

(** A deterministic source for examples: the state counts the draws,
    the k-th [randn] returns k+1 (so samples are pairwise different and
    never the fill value 0), and [randint high] walks through
    eight 0s, eight 1s, eight 2s, ... modulo [high]. *)
#[local] Instance counting_source : Numpy := {|
  float := nat;
  zero := 0;
  rng := nat;
  randn := fun c => (S c, S c);
  randint := fun high c => ((c / 8) mod high, S c)
|}.



(** A state of the benchmark on the counting source in which the next
    draw repeats the last operator of both strings. *)
Definition collision_state : @bench_state counting_source :=
  {| bs_rng := 4; operators_a := [(0, 0)]; operators_b := [(0, 0)] |}.

(** A source stuck on one answer: every [randint] returns 0, so every
    operator it yields is (0, 0). *)
Definition stuck_source : Numpy := {|
  float := nat;
  zero := 0;
  rng := nat;
  randn := fun c => (S c, S c);
  randint := fun _ c => (0, S c)
|}.

(** A state of the benchmark on the stuck source, both strings ending
    in the only operator the source yields. *)
Definition stuck_state : @bench_state stuck_source :=
  @Build_bench_state stuck_source 4 [(0, 0)] [(0, 0)].

(** ** Predicates of the statements *)

(** A loop body keeps [I] and does not raise. *)
Definition preserves {S} (I : S -> Prop) (m : M S unit) : Prop :=
  ∀ st, I st → ∃ st', m st = Ret (tt, st') ∧ I st'.

Section Predicates.
Context {NP : Numpy}.

(** The buffer has the size its shape asks for. *)
Definition well_shaped (sh : list nat) (a : ndarray) : Prop :=
  shape a = sh ∧ length (data a) = foldr Nat.mul 1 sh.

(** Both arrays of the generator have the shape they were created
    with. *)
Definition gen_shaped (n : nat) (st : gen_state) : Prop :=
  well_shaped [n; n] (one_body_coefficients st) ∧
  well_shaped [n; n; n; n] (two_body_coefficients st).

(** The state the loops of the generator start from, after the draw of
    the constant. *)
Definition gen_init (n : nat) (g : rng) : gen_state :=
  {| gs_rng := g;
     one_body_coefficients := zeros [n; n];
     two_body_coefficients := zeros [n; n; n; n] |}.

(** The one-body guard of line 38. *)
Definition same_spin (p q : nat) : bool :=
  (p <=? p) && (p mod 2 =? q mod 2).

(** The innermost loop body reaches lines 66-68 at [(p, q, r, s)]: a
    sample is drawn and written to the entry and to its mirror. *)
Definition assigned (p q r s : nat) : bool :=
  negb ((p =? q) || (r =? s)) && negb (skip_conjugate p q r s).

(** The pair the two [randint] calls of one operator draw return from
    generator state [g], and the state they leave. *)
Definition draw_operator (n_qubits : nat) (g : rng) : operator * rng :=
  let (mode, g1) := randint n_qubits g in
  let (flag, g2) := randint 2 g1 in
  ((mode, flag), g2).

(** The generator state after [k] operator draws. *)
Definition after_draws (n_qubits k : nat) (g : rng) : rng :=
  Nat.iter k (λ g', (draw_operator n_qubits g').2) g.

(** The [k]-th operator the source yields from state [g], counting
    from 0. *)
Definition kth_draw (n_qubits k : nat) (g : rng) : operator :=
  (draw_operator n_qubits (after_draws n_qubits k g)).1.

(** From every state the source eventually yields an operator other
    than any given one. *)
Definition fair_source (n_qubits : nat) : Prop :=
  ∀ g prev, ∃ k, kth_draw n_qubits k g ≠ prev.

(** No two consecutive operators of the string are the same. *)
Definition no_repeat (l : list operator) : Prop :=
  ∀ i x y, l !! i = Some x → l !! S i = Some y → x ≠ y.

(** The state with the generator replaced, the lists kept. *)
Definition with_rng (g : rng) (st : bench_state) : bench_state :=
  {| bs_rng := g;
     operators_a := operators_a st;
     operators_b := operators_b st |}.

(** The other operator string. *)
Definition other (w : which) : which :=
  match w with TermA => TermB | TermB => TermA end.

(** The generator state after [k] calls of [randn]. *)
Definition advance (k : nat) (g : rng) : rng :=
  Nat.iter k (λ g', (randn g').2) g.

(** The sample the [k]-th call of [randn] returns from state [g],
    counting from 0. *)
Definition sample (k : nat) (g : rng) : float := (randn (advance k g)).1.

(** The number of [randn] calls of one run of the generator: one for
    the constant, one at each pair that passes the guard of line 38,
    one at each quadruple that reaches line 66. *)
Definition generator_draws (n : nat) : nat :=
  1 + sum_list_with (λ p,
        sum_list_with (λ q,
          Nat.b2n (same_spin p q) +
          sum_list_with (λ r,
            sum_list_with (λ s, Nat.b2n (assigned p q r s)) (seq 0 n))
            (seq 0 n))
          (seq 0 n))
        (seq 0 n).

(** The same count, loop by loop: the calls made inside the two inner
    loops at [(p, q, r)], inside one pass of the loop over [q], and
    inside one pass of the loop over [p]. *)
Definition draws_rs (n p q r : nat) : nat :=
  sum_list_with (λ s, Nat.b2n (assigned p q r s)) (seq 0 n).

Definition draws_q (n p q : nat) : nat :=
  Nat.b2n (same_spin p q) + sum_list_with (draws_rs n p q) (seq 0 n).

Definition draws_p (n p : nat) : nat :=
  sum_list_with (draws_q n p) (seq 0 n).

(** Both loop bodies of the generator move the counted invariant [J]
    on by the number of samples they draw. *)
Definition counted_steps (n : nat) (J : nat → gen_state → Prop) : Prop :=
  (∀ p q j st, p < n → q < n → J j st →
     ∃ st', one_body_terms p q st = Ret (tt, st') ∧
            J (j + Nat.b2n (same_spin p q)) st') ∧
  (∀ p q r s j st, p < n → q < n → r < n → s < n → J j st →
     ∃ st', two_body_terms p q r s st = Ret (tt, st') ∧
            J (j + Nat.b2n (assigned p q r s)) st').

(** The loop invariant of the generator that locates the source: the
    arrays have their shapes and [j] samples have been drawn. *)
Definition gen_at (n : nat) (g : rng) (j : nat) (st : gen_state) : Prop :=
  gen_shaped n st ∧ gs_rng st = advance j g.

(** The same, the number of samples left open. *)
Definition gen_running (n : nat) (g : rng) (st : gen_state) : Prop :=
  gen_shaped n st ∧ ∃ j, gs_rng st = advance j g.

(** A ladder operator on [n_qubits] modes. *)
Definition valid_operator (n_qubits : nat) (op : operator) : Prop :=
  op.1 < n_qubits ∧ op.2 < 2.

End Predicates.

(** ** The state monad and the loops *)

Section Loops.
Context {St : Type}.
Implicit Types (I : St → Prop) (st : St).

Lemma bind_run {A B} (m : M St A) (k : A → M St B) st a st' :
  m st = Ret (a, st') → (m ≫= k) st = k a st'.
Proof. intros Hm. unfold mbind, M_bind, bind. by rewrite Hm. Qed.

Lemma preserves_ret I : preserves I (ret tt).
Proof. intros st Hst. by exists st. Qed.

Lemma preserves_seq I (m k : M St unit) :
  preserves I m → preserves I k → preserves I (m ;; k).
Proof.
  intros Hm Hk st Hst.
  destruct (Hm st Hst) as (st1 & E1 & H1).
  destruct (Hk st1 H1) as (st2 & E2 & H2).
  exists st2. split; [|done]. by rewrite (bind_run _ _ _ _ _ E1).
Qed.

Lemma preserves_for_each I (l : list nat) (body : nat → M St unit) :
  (∀ i, i ∈ l → preserves I (body i)) → preserves I (for_each l body).
Proof.
  induction l as [|i l IH]; intros Hbody; simpl.
  - apply preserves_ret.
  - apply preserves_seq.
    + apply Hbody. left.
    + apply IH. intros j Hj. apply Hbody. by right.
Qed.

Lemma preserves_for_range I (n : nat) (body : nat → M St unit) :
  (∀ i, i < n → preserves I (body i)) → preserves I (for_range n body).
Proof.
  intros Hbody. apply preserves_for_each. intros i Hi.
  apply Hbody. apply elem_of_seq in Hi. lia.
Qed.

Lemma bind_inv {A B} (m : M St A) (k : A → M St B) (st : St) r :
  (m ≫= k) st = Ret r → ∃ a st1, m st = Ret (a, st1) ∧ k a st1 = Ret r.
Proof.
  unfold mbind, M_bind, bind. destruct (m st) as [[a st1]| |]; [|done..].
  intros. by exists a, st1.
Qed.

(** An invariant counted in iterations holds after the loop, when the
    loop returns. *)
Lemma for_each_counted (I : nat → St → Prop) (body : nat → M St unit) l :
  (∀ k i st st', I k st → body i st = Ret (tt, st') → I (S k) st') →
  ∀ k st st', I k st → for_each l body st = Ret (tt, st') →
    I (k + length l) st'.
Proof.
  intros Hbody. induction l as [|i l IH]; intros k st st' HI; simpl.
  - intros [= <-]. by rewrite Nat.add_0_r.
  - intros (u & st1 & E1 & E2)%bind_inv. destruct u.
    rewrite Nat.add_succ_r. apply (IH (S k) st1); [|done].
    by apply (Hbody k i st).
Qed.

(** A loop whose body returns on enough fuel returns on enough fuel. *)
Lemma for_each_enough_fuel (I : St → Prop) (body : nat → nat → M St unit) l :
  (∀ f f' i st r, f ≤ f' → body f i st = Ret r → body f' i st = Ret r) →
  (∀ i st, I st → ∃ f st', body f i st = Ret (tt, st') ∧ I st') →
  ∀ st, I st → ∃ f st', for_each l (body f) st = Ret (tt, st') ∧ I st'.
Proof.
  intros Hmono Hbody. induction l as [|i l IH]; intros st HI; simpl.
  - by exists 0, st.
  - destruct (Hbody i st HI) as (f1 & st1 & E1 & H1).
    destruct (IH st1 H1) as (f2 & st2 & E2 & H2).
    exists (f1 `max` f2), st2. split; [|done].
    rewrite (bind_run _ _ _ _ _ (Hmono f1 _ i st _ (Nat.le_max_l f1 f2) E1)).
    clear -Hmono E2. revert st1 E2.
    induction l as [|j l IHl]; intros st1; simpl; [done|].
    intros (u & st3 & E3 & E4)%bind_inv.
    rewrite (bind_run _ _ _ _ _ (Hmono f2 _ j st1 _ (Nat.le_max_r f1 f2) E3)).
    by apply IHl.
Qed.

End Loops.

(** ** Arrays *)

Section Arrays.
Context {NP : Numpy}.
Implicit Types (a : ndarray) (sh idx : list nat).

Lemma ravel_bound sh idx acc k :
  ravel sh idx acc = Some k → k < (acc + 1) * foldr Nat.mul 1 sh.
Proof.
  revert idx acc. induction sh as [|d sh IH]; intros [|i idx] acc; simpl;
    try discriminate.
  - intros [= <-]. lia.
  - destruct (Nat.ltb_spec i d) as [Hi|]; [|discriminate].
    intros Hk. apply IH in Hk.
    eapply Nat.lt_le_trans; [exact Hk|].
    rewrite Nat.mul_assoc. apply Nat.mul_le_mono_r. nia.
Qed.

Lemma ravel_inj sh idx idx' acc acc' k :
  ravel sh idx acc = Some k → ravel sh idx' acc' = Some k →
  acc = acc' ∧ idx = idx'.
Proof.
  revert idx idx' acc acc'.
  induction sh as [|d sh IH]; intros [|i idx] [|j idx'] acc acc'; simpl;
    try discriminate.
  - by intros [= <-] [= <-].
  - destruct (Nat.ltb_spec i d) as [Hi|]; [|discriminate].
    destruct (Nat.ltb_spec j d) as [Hj|]; [|discriminate].
    intros H1 H2. destruct (IH _ _ _ _ H1 H2) as [Hacc ->].
    assert (acc = acc') as ->
      by (destruct (Nat.lt_trichotomy acc acc') as [?|[?|?]]; [nia|done|nia]).
    assert (i = j) as -> by lia. done.
Qed.

Lemma ravel_in_range sh idx acc :
  Forall2 lt idx sh → is_Some (ravel sh idx acc).
Proof.
  intros H. revert acc. induction H as [|i d idx sh Hi _ IH]; intros acc; simpl.
  - by eexists.
  - destruct (Nat.ltb_spec i d); [apply IH|lia].
Qed.

Lemma getitem_in_range sh a idx :
  well_shaped sh a → Forall2 lt idx sh → ∃ v, getitem a idx = Ret v.
Proof.
  intros [Hsh Hlen] Hidx. unfold getitem. rewrite Hsh.
  destruct (ravel_in_range sh idx 0 Hidx) as [k Hk]. rewrite Hk.
  apply ravel_bound in Hk. simpl in Hk. rewrite Nat.add_0_r in Hk.
  destruct (lookup_lt_is_Some_2 (data a) k) as [v Hv]; [lia|].
  rewrite Hv. by eexists.
Qed.

Lemma setitem_in_range sh a idx v :
  well_shaped sh a → Forall2 lt idx sh →
  ∃ a', setitem a idx v = Ret a' ∧ well_shaped sh a' ∧
        getitem a' idx = Ret v ∧
        ∀ idx', idx' ≠ idx → getitem a' idx' = getitem a idx'.
Proof.
  intros [Hsh Hlen] Hidx. unfold setitem. rewrite Hsh.
  destruct (ravel_in_range sh idx 0 Hidx) as [k Hk]. rewrite Hk.
  pose proof (ravel_bound _ _ _ _ Hk) as Hb. simpl in Hb.
  rewrite Nat.add_0_r in Hb.
  destruct (Nat.ltb_spec k (length (data a))); [|lia].
  eexists. split; [done|]. split; [|split].
  - split; simpl; [done|]. by rewrite length_insert.
  - unfold getitem. simpl. rewrite Hk.
    by rewrite list_lookup_insert_eq.
  - intros idx' Hne. unfold getitem. simpl. rewrite Hsh.
    destruct (ravel sh idx' 0) as [k'|] eqn:Hk'; [|done].
    rewrite list_lookup_insert_ne; [done|].
    intros <-. destruct (ravel_inj _ _ _ _ _ _ Hk Hk'). congruence.
Qed.

Lemma zeros_well_shaped sh : well_shaped sh (zeros sh).
Proof. split; [done|]. simpl. by rewrite length_replicate. Qed.

Lemma getitem_zeros sh idx v : getitem (zeros sh) idx = Ret v → v = zero.
Proof.
  unfold getitem. simpl. destruct (ravel sh idx 0) as [k|]; [|done].
  destruct (replicate _ zero !! k) as [w|] eqn:Hw; [|done].
  intros [= <-]. by apply lookup_replicate in Hw as [-> _].
Qed.

End Arrays.

(** ** The generator, step by step *)

Section Generator.
Context {NP : Numpy}.
Implicit Types (st : gen_state) (g : rng).

Lemma gen_init_shaped n g : gen_shaped n (gen_init n g).
Proof. split; apply zeros_well_shaped. Qed.

Lemma index2_in_range n p q : p < n → q < n → Forall2 lt [p; q] [n; n].
Proof. intros. by repeat constructor. Qed.

Lemma index4_in_range n p q r s :
  p < n → q < n → r < n → s < n → Forall2 lt [p; q; r; s] [n; n; n; n].
Proof. intros. by repeat constructor. Qed.

(** Effect of lines 37-40 on a state of the right shape. *)
Lemma one_body_terms_spec n p q st :
  gen_shaped n st → p < n → q < n →
  ∃ st', one_body_terms p q st = Ret (tt, st') ∧ gen_shaped n st' ∧
    two_body_coefficients st' = two_body_coefficients st ∧
    (same_spin p q = false → st' = st) ∧
    (same_spin p q = true →
       ∃ v, randn (gs_rng st) = (v, gs_rng st') ∧
         getitem (one_body_coefficients st') [p; q] = Ret v ∧
         getitem (one_body_coefficients st') [q; p] = Ret v ∧
         ∀ idx, idx ≠ [p; q] → idx ≠ [q; p] →
           getitem (one_body_coefficients st') idx
           = getitem (one_body_coefficients st) idx).
Proof.
  intros Hsh Hp Hq. pose proof Hsh as [H1 H2]. unfold one_body_terms. fold (same_spin p q).
  destruct (same_spin p q) eqn:Hg.
  - destruct (randn (gs_rng st)) as [v g] eqn:Hr.
    destruct (setitem_in_range _ _ [p; q] v H1 (index2_in_range n p q Hp Hq))
      as (a1 & E1 & W1 & G1 & O1).
    destruct (setitem_in_range _ _ [q; p] v W1 (index2_in_range n q p Hq Hp))
      as (a2 & E2 & W2 & G2 & O2).
    exists {| gs_rng := g; one_body_coefficients := a2;
              two_body_coefficients := two_body_coefficients st |}.
    split; [|split; [|split; [|split]]]; try done.
    + unfold mbind, M_bind, bind, np_randn, set_one_body, get_one_body.
      rewrite Hr. simpl. rewrite E1. simpl. rewrite G1. simpl.
      by rewrite E2.
    + intros _. exists v. simpl. split; [done|]. split; [|split; [done|]].
      * destruct (decide ([p; q] = [q; p])) as [->|Hne]; [done|].
        by rewrite O2.
      * intros idx Hn1 Hn2. by rewrite O2, O1.
  - exists st. do 4 (split; [done|]). done.
Qed.

(** Effect of lines 46-68 on a state of the right shape. *)
Lemma two_body_terms_spec n p q r s st :
  gen_shaped n st → p < n → q < n → r < n → s < n →
  ∃ st', two_body_terms p q r s st = Ret (tt, st') ∧ gen_shaped n st' ∧
    one_body_coefficients st' = one_body_coefficients st ∧
    (assigned p q r s = false → st' = st) ∧
    (assigned p q r s = true →
       ∃ v, randn (gs_rng st) = (v, gs_rng st') ∧
         getitem (two_body_coefficients st') [p; q; r; s] = Ret v ∧
         getitem (two_body_coefficients st') [s; r; q; p] = Ret v ∧
         ∀ idx, idx ≠ [p; q; r; s] → idx ≠ [s; r; q; p] →
           getitem (two_body_coefficients st') idx
           = getitem (two_body_coefficients st) idx).
Proof.
  intros Hsh Hp Hq Hr Hs. pose proof Hsh as [H1 H2].
  unfold two_body_terms, assigned.
  destruct ((p =? q) || (r =? s)) eqn:Hz; simpl.
  { exists st. do 4 (split; [done|]). done. }
  destruct (skip_conjugate p q r s) eqn:Hk; simpl.
  { exists st. do 4 (split; [done|]). done. }
  destruct (randn (gs_rng st)) as [v g] eqn:Hd.
  destruct (setitem_in_range _ _ [p; q; r; s] v H2
              (index4_in_range n p q r s Hp Hq Hr Hs))
    as (a1 & E1 & W1 & G1 & O1).
  destruct (setitem_in_range _ _ [s; r; q; p] v W1
              (index4_in_range n s r q p Hs Hr Hq Hp))
    as (a2 & E2 & W2 & G2 & O2).
  exists {| gs_rng := g; one_body_coefficients := one_body_coefficients st;
            two_body_coefficients := a2 |}.
  split; [|split; [|split; [|split]]]; try done.
  - unfold mbind, M_bind, bind, np_randn, set_two_body, get_two_body.
    rewrite Hd. simpl. rewrite E1. simpl. rewrite G1. simpl.
    by rewrite E2.
  - intros _. exists v. simpl. split; [done|]. split; [|split; [done|]].
    + destruct (decide ([p; q; r; s] = [s; r; q; p])) as [->|Hne]; [done|].
      by rewrite O2.
    + intros idx Hn1 Hn2. by rewrite O2, O1.
Qed.

(** The four nested loops keep every invariant the two bodies keep. *)
Lemma generate_integrals_preserves (I : gen_state → Prop) n :
  (∀ p q, p < n → q < n → preserves I (one_body_terms p q)) →
  (∀ p q r s, p < n → q < n → r < n → s < n →
     preserves I (two_body_terms p q r s)) →
  preserves I (generate_integrals n).
Proof.
  intros H1 H2. unfold generate_integrals.
  apply preserves_for_range. intros p Hp.
  apply preserves_for_range. intros q Hq.
  apply preserves_seq; [by apply H1|].
  apply preserves_for_range. intros r Hr.
  apply preserves_for_range. intros s Hs.
  by apply H2.
Qed.

(** The generator returns, and the operator it returns satisfies every
    invariant of the loop bodies that holds of the zero arrays. *)
Lemma artificial_molecular_operator_inv (I : gen_state → Prop) n g :
  I (gen_init n (randn g).2) →
  (∀ p q, p < n → q < n → preserves I (one_body_terms p q)) →
  (∀ p q r s, p < n → q < n → r < n → s < n →
     preserves I (two_body_terms p q r s)) →
  ∃ op g', artificial_molecular_operator n g = Ret (op, g') ∧
    constant op = (randn g).1 ∧
    I {| gs_rng := g';
         one_body_coefficients := one_body_tensor op;
         two_body_coefficients := two_body_tensor op |}.
Proof.
  intros H0 H1 H2. unfold artificial_molecular_operator.
  destruct (randn g) as [c g1]. simpl in *.
  destruct (generate_integrals_preserves I n H1 H2 _ H0) as (st' & E & HI).
  unfold gen_init in E. rewrite E.
  eexists _, _. split; [done|]. split; [done|]. by destruct st'.
Qed.

End Generator.

(** ** Which quadruples are assigned *)

Section Selection.

Lemma size_list_to_set_remove_dups (l : list nat) :
  size (list_to_set l : gset nat) = length (remove_dups l).
Proof.
  rewrite <- (size_list_to_set (C:=gset nat) (remove_dups l))
    by apply NoDup_remove_dups.
  f_equal. apply set_eq. intros x.
  by rewrite !elem_of_list_to_set, elem_of_remove_dups.
Qed.

Ltac count_indices :=
  rewrite size_list_to_set_remove_dups; simpl;
  repeat case_decide; simpl;
  rewrite ?elem_of_cons, ?elem_of_nil in *; lia.

Lemma unique_indices_four p q r s :
  p ≠ q → r ≠ s → p ≠ r → p ≠ s → q ≠ r → q ≠ s →
  size (list_to_set [p; q; r; s] : gset nat) = 4.
Proof. intros. count_indices. Qed.

Lemma unique_indices_two p q r s :
  p ≠ q → (r = p ∧ s = q) ∨ (r = q ∧ s = p) →
  size (list_to_set [p; q; r; s] : gset nat) = 2.
Proof. intros. count_indices. Qed.

Lemma unique_indices_three p q r s :
  p ≠ q → r ≠ s →
  ¬ (p ≠ r ∧ p ≠ s ∧ q ≠ r ∧ q ≠ s) →
  ¬ ((r = p ∧ s = q) ∨ (r = q ∧ s = p)) →
  size (list_to_set [p; q; r; s] : gset nat) = 3.
Proof. intros. count_indices. Qed.

Lemma skip_conjugate_four p q r s :
  p ≠ q → r ≠ s → p ≠ r → p ≠ s → q ≠ r → q ≠ s →
  skip_conjugate p q r s = bool_decide (Nat.min r s ≤ Nat.min p q).
Proof.
  intros. unfold skip_conjugate.
  rewrite unique_indices_four by done. simpl.
  rewrite bool_decide_eq_true_2 by congruence.
  destruct (Nat.leb_spec (Nat.min r s) (Nat.min p q));
    [by rewrite bool_decide_eq_true_2|by rewrite bool_decide_eq_false_2 by lia].
Qed.

Lemma skip_conjugate_repeat p q :
  p ≠ q → skip_conjugate p q p q = bool_decide (q < p).
Proof.
  intros. unfold skip_conjugate.
  rewrite unique_indices_two by auto. simpl.
  rewrite bool_decide_eq_true_2 by congruence.
  destruct (Nat.ltb_spec q p);
    [by rewrite bool_decide_eq_true_2|by rewrite bool_decide_eq_false_2 by lia].
Qed.

Lemma skip_conjugate_self p q r s :
  [p; q; r; s] = [s; r; q; p] → skip_conjugate p q r s = false.
Proof.
  intros. unfold skip_conjugate. by rewrite bool_decide_eq_false_2 by auto.
Qed.

Lemma skip_conjugate_three p q r s :
  size (list_to_set [p; q; r; s] : gset nat) = 3 →
  skip_conjugate p q r s = false.
Proof.
  intros H. unfold skip_conjugate. rewrite H. simpl. by case_bool_decide.
Qed.

Lemma assigned_off_diagonal p q r s :
  assigned p q r s = true → p ≠ q ∧ r ≠ s.
Proof.
  unfold assigned. intros [H _]%andb_true_iff.
  apply negb_true_iff, orb_false_iff in H as [?%Nat.eqb_neq ?%Nat.eqb_neq].
  done.
Qed.

Lemma assigned_eq p q r s :
  p ≠ q → r ≠ s → assigned p q r s = negb (skip_conjugate p q r s).
Proof.
  intros Hpq%Nat.eqb_neq Hrs%Nat.eqb_neq. unfold assigned.
  by rewrite Hpq, Hrs.
Qed.

(** Neither branch of lines 56-63 applies to three distinct values. *)
Lemma assigned_three_valued p q r s :
  p ≠ q → r ≠ s → size (list_to_set [p; q; r; s] : gset nat) = 3 →
  assigned p q r s = true.
Proof.
  intros Hpq Hrs H3. rewrite assigned_eq by done.
  by rewrite skip_conjugate_three.
Qed.

(** Every mirror pair off the diagonals has a member that is assigned. *)
Lemma assigned_or_mirror p q r s :
  p ≠ q → r ≠ s → assigned p q r s = true ∨ assigned s r q p = true.
Proof.
  intros Hpq Hrs. rewrite !assigned_eq by done.
  destruct (decide (p ≠ r ∧ p ≠ s ∧ q ≠ r ∧ q ≠ s)) as [(?&?&?&?)|Hd].
  - rewrite !skip_conjugate_four by done.
    repeat case_bool_decide; simpl; auto; lia.
  - destruct (decide ((r = p ∧ s = q) ∨ (r = q ∧ s = p)))
      as [[[-> ->]|[-> ->]]|Hn].
    + rewrite !skip_conjugate_repeat by done.
      repeat case_bool_decide; simpl; auto; lia.
    + left. by rewrite skip_conjugate_self.
    + left. rewrite skip_conjugate_three; [done|].
      by apply unique_indices_three.
Qed.

(** With four or two distinct indices, a quadruple and its mirror are
    never both assigned, unless they are the same quadruple. *)
Lemma assigned_xor_mirror p q r s :
  p ≠ q → r ≠ s → [p; q; r; s] ≠ [s; r; q; p] →
  size (list_to_set [p; q; r; s] : gset nat) ≠ 3 →
  assigned p q r s = negb (assigned s r q p).
Proof.
  intros Hpq Hrs Hself H3. rewrite !assigned_eq by done.
  destruct (decide (p ≠ r ∧ p ≠ s ∧ q ≠ r ∧ q ≠ s)) as [(?&?&?&?)|Hd].
  - rewrite !skip_conjugate_four by done.
    repeat case_bool_decide; simpl; auto; lia.
  - destruct (decide ((r = p ∧ s = q) ∨ (r = q ∧ s = p)))
      as [[[-> ->]|[-> ->]]|Hn].
    + rewrite !skip_conjugate_repeat by done.
      repeat case_bool_decide; simpl; auto; lia.
    + done.
    + destruct H3. by apply unique_indices_three.
Qed.

End Selection.

(** ** The generated operator *)

Section Operator.
Context {NP : Numpy}.
Implicit Types (a : ndarray) (g : rng).

(** The generator returns on every size and from every generator
    state, with arrays of the shapes they were created with. *)
Lemma artificial_molecular_operator_returns n g :
  ∃ op g', artificial_molecular_operator n g = Ret (op, g') ∧
    constant op = (randn g).1 ∧
    well_shaped [n; n] (one_body_tensor op) ∧
    well_shaped [n; n; n; n] (two_body_tensor op).
Proof.
  destruct (artificial_molecular_operator_inv (gen_shaped n) n g)
    as (op & g' & E & Hc & H1 & H2).
  - apply gen_init_shaped.
  - intros p q Hp Hq st Hst.
    destruct (one_body_terms_spec n p q st Hst Hp Hq) as (st' & ? & ? & _).
    by exists st'.
  - intros p q r s Hp Hq Hr Hs st Hst.
    destruct (two_body_terms_spec n p q r s st Hst Hp Hq Hr Hs)
      as (st' & ? & ? & _).
    by exists st'.
  - by exists op, g'.
Qed.

(** A property of the two-body array that holds of the zero array and
    survives every assignment of lines 66-68 holds of the result. *)
Lemma two_body_invariant (P : ndarray → Prop) n g :
  P (zeros [n; n; n; n]) →
  (∀ a a' p q r s v,
     p < n → q < n → r < n → s < n → assigned p q r s = true → P a →
     getitem a' [p; q; r; s] = Ret v → getitem a' [s; r; q; p] = Ret v →
     (∀ idx, idx ≠ [p; q; r; s] → idx ≠ [s; r; q; p] →
        getitem a' idx = getitem a idx) →
     P a') →
  ∃ op g', artificial_molecular_operator n g = Ret (op, g') ∧
    P (two_body_tensor op).
Proof.
  intros H0 Hstep.
  destruct (artificial_molecular_operator_inv
    (λ st, gen_shaped n st ∧ P (two_body_coefficients st)) n g)
    as (op & g' & E & _ & _ & HP).
  - split; [apply gen_init_shaped|done].
  - intros p q Hp Hq st [Hst HP].
    destruct (one_body_terms_spec n p q st Hst Hp Hq)
      as (st' & ? & ? & Htwo & _).
    exists st'. by rewrite Htwo.
  - intros p q r s Hp Hq Hr Hs st [Hst HP].
    destruct (two_body_terms_spec n p q r s st Hst Hp Hq Hr Hs)
      as (st' & ? & ? & _ & Hskip & Hassign).
    exists st'. split; [done|]. split; [done|].
    destruct (assigned p q r s) eqn:Ha.
    + destruct (Hassign eq_refl) as (v & _ & G1 & G2 & Ho).
      by apply (Hstep (two_body_coefficients st) _ p q r s v).
    + by rewrite (Hskip eq_refl).
  - by exists op, g'.
Qed.

(** The same for the one-body array and lines 39-40. *)
Lemma one_body_invariant (P : ndarray → Prop) n g :
  P (zeros [n; n]) →
  (∀ a a' p q v,
     p < n → q < n → p mod 2 = q mod 2 → P a →
     getitem a' [p; q] = Ret v → getitem a' [q; p] = Ret v →
     (∀ idx, idx ≠ [p; q] → idx ≠ [q; p] → getitem a' idx = getitem a idx) →
     P a') →
  ∃ op g', artificial_molecular_operator n g = Ret (op, g') ∧
    P (one_body_tensor op).
Proof.
  intros H0 Hstep.
  destruct (artificial_molecular_operator_inv
    (λ st, gen_shaped n st ∧ P (one_body_coefficients st)) n g)
    as (op & g' & E & _ & _ & HP).
  - split; [apply gen_init_shaped|done].
  - intros p q Hp Hq st [Hst HP].
    destruct (one_body_terms_spec n p q st Hst Hp Hq)
      as (st' & ? & ? & _ & Hskip & Hassign).
    exists st'. split; [done|]. split; [done|].
    destruct (same_spin p q) eqn:Ha.
    + destruct (Hassign eq_refl) as (v & _ & G1 & G2 & Ho).
      apply andb_true_iff in Ha as [_ Hpar%Nat.eqb_eq].
      by apply (Hstep (one_body_coefficients st) _ p q v).
    + by rewrite (Hskip eq_refl).
  - intros p q r s Hp Hq Hr Hs st [Hst HP].
    destruct (two_body_terms_spec n p q r s st Hst Hp Hq Hr Hs)
      as (st' & ? & ? & Hone & _).
    exists st'. by rewrite Hone.
  - by exists op, g'.
Qed.

(** The mirror symmetry, for all index quadruples of one run. *)
Lemma two_body_mirror_all n g :
  ∃ op g', artificial_molecular_operator n g = Ret (op, g') ∧
    ∀ p q r s, p < n → q < n → r < n → s < n →
      ∃ v, getitem (two_body_tensor op) [p; q; r; s] = Ret v ∧
           getitem (two_body_tensor op) [s; r; q; p] = Ret v.
Proof.
  apply (two_body_invariant
    (λ a, ∀ p q r s, p < n → q < n → r < n → s < n →
       ∃ v, getitem a [p; q; r; s] = Ret v ∧ getitem a [s; r; q; p] = Ret v)).
  - intros p q r s Hp Hq Hr Hs.
    destruct (getitem_in_range _ _ [p; q; r; s]
                (zeros_well_shaped [n; n; n; n])
                (index4_in_range n p q r s Hp Hq Hr Hs)) as [v Hv].
    destruct (getitem_in_range _ _ [s; r; q; p]
                (zeros_well_shaped [n; n; n; n])
                (index4_in_range n s r q p Hs Hr Hq Hp)) as [w Hw].
    exists v. split; [done|]. rewrite Hw. f_equal.
    apply getitem_zeros in Hv, Hw. congruence.
  - intros a a' p0 q0 r0 s0 v _ _ _ _ _ IH G1 G2 Ho p q r s Hp Hq Hr Hs.
    destruct (decide ([p; q; r; s] = [p0; q0; r0; s0])) as [[= -> -> -> ->]|N1].
    { by exists v. }
    destruct (decide ([p; q; r; s] = [s0; r0; q0; p0])) as [[= -> -> -> ->]|N2].
    { by exists v. }
    destruct (IH p q r s Hp Hq Hr Hs) as (w & W1 & W2).
    exists w. rewrite !Ho; [done|congruence..].
Qed.

(** C1. For every mode count and every state of the random source the
    generator returns an operator whose two-body array holds the same
    float at (p, q, r, s) and at (s, r, q, p), for all four indices
    below the mode count. *)
Theorem two_body_mirror_symmetry n g p q r s :
  p < n → q < n → r < n → s < n →
  ∃ op g' v, artificial_molecular_operator n g = Ret (op, g') ∧
    getitem (two_body_tensor op) [p; q; r; s] = Ret v ∧
    getitem (two_body_tensor op) [s; r; q; p] = Ret v.
Proof.
  intros Hp Hq Hr Hs.
  destruct (two_body_mirror_all n g) as (op & g' & E & HP).
  destruct (HP p q r s Hp Hq Hr Hs) as (v & ? & ?). by exists op, g', v.
Qed.

(** What lines 50-63 do get right. Of every mirror pair (p, q, r, s),
    (s, r, q, p) with p <> q and r <> s at least one member is
    assigned; when the four indices take four or two distinct values
    and the quadruple is not its own mirror, exactly one is; and the
    loop body draws from the random source at a quadruple exactly when
    the quadruple is assigned. *)
Theorem conjugate_orbit_representatives n p q r s st :
  p < n → q < n → r < n → s < n → p ≠ q → r ≠ s → gen_shaped n st →
  (assigned p q r s = true ∨ assigned s r q p = true) ∧
  ([p; q; r; s] ≠ [s; r; q; p] →
   size (list_to_set [p; q; r; s] : gset nat) ≠ 3 →
   assigned p q r s = negb (assigned s r q p)) ∧
  ∃ st', two_body_terms p q r s st = Ret (tt, st') ∧
    gs_rng st' =
      if assigned p q r s then (randn (gs_rng st)).2 else gs_rng st.
Proof.
  intros Hp Hq Hr Hs Hpq Hrs Hst.
  split; [by apply assigned_or_mirror|].
  split; [by apply assigned_xor_mirror|].
  destruct (two_body_terms_spec n p q r s st Hst Hp Hq Hr Hs)
    as (st' & E & _ & _ & Hskip & Hassign).
  exists st'. split; [done|].
  destruct (assigned p q r s).
  - destruct (Hassign eq_refl) as (v & Hv & _). by rewrite Hv.
  - by rewrite (Hskip eq_refl).
Qed.

(** C5. In the operator the generator returns, a two-body entry whose
    first two indices coincide, or whose last two indices coincide, is
    the zero the array was created with. *)
Theorem two_body_pair_diagonal_zero n g p q r s :
  p < n → q < n → r < n → s < n → p = q ∨ r = s →
  ∃ op g', artificial_molecular_operator n g = Ret (op, g') ∧
    getitem (two_body_tensor op) [p; q; r; s] = Ret zero.
Proof.
  intros Hp Hq Hr Hs Hd.
  destruct (two_body_invariant
    (λ a, ∀ p q r s, p < n → q < n → r < n → s < n → p = q ∨ r = s →
       getitem a [p; q; r; s] = Ret zero)
    n g) as (op & g' & E & HP).
  - clear. intros p q r s Hp Hq Hr Hs _.
    destruct (getitem_in_range _ _ [p; q; r; s]
                (zeros_well_shaped [n; n; n; n])
                (index4_in_range n p q r s Hp Hq Hr Hs)) as [v Hv].
    rewrite Hv. f_equal. by apply getitem_zeros in Hv.
  - clear. intros a a' p0 q0 r0 s0 v _ _ _ _ Ha IH _ _ Ho p q r s Hp Hq Hr Hs Hd.
    apply assigned_off_diagonal in Ha as [Hpq Hrs].
    rewrite Ho; [by apply IH| |]; intros [= -> -> -> ->]; lia.
  - exists op, g'. split; [done|]. by apply HP.
Qed.

(** C4. In the operator the generator returns, the one-body entry at
    (p, q) is the zero the array was created with when p and q differ
    in parity, and equals the entry at (q, p) when they agree. *)
Theorem one_body_spin_blocks n g p q :
  p < n → q < n →
  ∃ op g', artificial_molecular_operator n g = Ret (op, g') ∧
    (p mod 2 ≠ q mod 2 → getitem (one_body_tensor op) [p; q] = Ret zero) ∧
    (p mod 2 = q mod 2 →
       ∃ v, getitem (one_body_tensor op) [p; q] = Ret v ∧
            getitem (one_body_tensor op) [q; p] = Ret v).
Proof.
  intros Hp Hq.
  destruct (one_body_invariant
    (λ a, ∀ p q, p < n → q < n →
       (p mod 2 ≠ q mod 2 → getitem a [p; q] = Ret zero) ∧
       ∃ v, getitem a [p; q] = Ret v ∧ getitem a [q; p] = Ret v)
    n g) as (op & g' & E & HP).
  - clear. intros p q Hp Hq.
    destruct (getitem_in_range _ _ [p; q] (zeros_well_shaped [n; n])
                (index2_in_range n p q Hp Hq)) as [v Hv].
    destruct (getitem_in_range _ _ [q; p] (zeros_well_shaped [n; n])
                (index2_in_range n q p Hq Hp)) as [w Hw].
    pose proof (getitem_zeros _ _ _ Hv). pose proof (getitem_zeros _ _ _ Hw).
    subst. split; [done|]. by exists zero.
  - clear. intros a a' p0 q0 v _ _ Hpar IH G1 G2 Ho p q Hp Hq.
    destruct (decide ([p; q] = [p0; q0])) as [[= -> ->]|N1].
    { split; [done|]. by exists v. }
    destruct (decide ([p; q] = [q0; p0])) as [[= -> ->]|N2].
    { split; [done|]. by exists v. }
    destruct (IH p q Hp Hq) as (Z & w & W1 & W2).
    split.
    + intros Hne. rewrite Ho; [by apply Z|congruence..].
    + exists w. rewrite !Ho; [done|congruence..].
  - destruct (HP p q Hp Hq) as (Z & S). exists op, g'.
    split; [done|]. split; [done|]. by intros _.
Qed.

(** C6. Two invocations with the same mode count that start from the
    same state of the random source both return, and they return the
    same operator (constant, one-body array, two-body array) and leave
    the source in the same state. *)
Theorem generator_deterministic n g1 g2 :
  g1 = g2 →
  ∃ op g', artificial_molecular_operator n g1 = Ret (op, g') ∧
           artificial_molecular_operator n g2 = Ret (op, g').
Proof.
  intros <-.
  destruct (artificial_molecular_operator_returns n g1) as (op & g' & E & _).
  by exists op, g'.
Qed.

(** C8. On mode count 0 the generator raises nothing: it returns the
    operator whose constant is the one sample drawn from the source and
    whose arrays are the empty arrays of shapes 0x0 and 0x0x0x0, and it
    leaves the source one draw further. *)
Theorem generator_on_zero_modes g :
  artificial_molecular_operator 0 g =
    Ret ({| constant := (randn g).1;
            one_body_tensor := {| shape := [0; 0]; data := [] |};
            two_body_tensor := {| shape := [0; 0; 0; 0]; data := [] |} |},
         (randn g).2).
Proof. unfold artificial_molecular_operator. by destruct (randn g). Qed.

End Operator.

(** ** The operator strings of the arithmetic benchmark *)

Section Benchmark.
Context {NP : Numpy}.
Implicit Types (st : bench_state) (g : rng) (op prev : operator) (w : which).

Lemma with_rng_same st : with_rng (bs_rng st) st = st.
Proof. by destruct st. Qed.

Lemma operators_of_with_rng w g st :
  operators_of w (with_rng g st) = operators_of w st.
Proof. by destruct w. Qed.

Lemma after_draws_succ n k g :
  after_draws n k (draw_operator n g).2 = after_draws n (S k) g.
Proof. unfold after_draws. by rewrite Nat.iter_succ_r. Qed.

Lemma random_operator_run n st :
  0 < n →
  random_operator n st =
    Ret (kth_draw n 0 (bs_rng st), with_rng (after_draws n 1 (bs_rng st)) st).
Proof.
  intros Hn. unfold random_operator, np_randint, mbind, M_bind, bind.
  unfold kth_draw, after_draws, draw_operator. simpl.
  destruct (Nat.eqb_spec n 0) as [->|_]; [lia|].
  destruct (randint n (bs_rng st)) as [mode g1]. simpl.
  by destruct (randint 2 g1) as [flag g2].
Qed.

Lemma random_operator_inv n st op st' :
  random_operator n st = Ret (op, st') →
  0 < n ∧ op = kth_draw n 0 (bs_rng st) ∧
  st' = with_rng (after_draws n 1 (bs_rng st)) st.
Proof.
  destruct (Nat.eq_dec n 0) as [->|Hn].
  - by unfold random_operator, np_randint, mbind, M_bind, bind.
  - rewrite random_operator_run by lia. intros [= <- <-]. split; [lia|done].
Qed.

Lemma redraw_unfold fuel n w op st :
  redraw_while_equal fuel n w op st =
    match last (operators_of w st) with
    | Some prev =>
        if bool_decide (op = prev) then
          match fuel with
          | 0 => OutOfFuel
          | S fuel' =>
              (op' ← random_operator n;
               redraw_while_equal fuel' n w op') st
          end
        else Ret (op, st)
    | None => Raise IndexError
    end.
Proof.
  destruct fuel; simpl; unfold mbind at 1, M_bind at 1, bind at 1, last_operator;
    destruct (last (operators_of w st)); try done; by case_bool_decide.
Qed.

Lemma redraw_exit fuel n w op prev st :
  last (operators_of w st) = Some prev → op ≠ prev →
  redraw_while_equal fuel n w op st = Ret (op, st).
Proof.
  intros Hl Hne. rewrite redraw_unfold, Hl. by rewrite bool_decide_eq_false_2.
Qed.

Lemma redraw_again fuel n w prev st :
  0 < n → last (operators_of w st) = Some prev →
  redraw_while_equal (S fuel) n w prev st =
    redraw_while_equal fuel n w (kth_draw n 0 (bs_rng st))
      (with_rng (after_draws n 1 (bs_rng st)) st).
Proof.
  intros Hn Hl. rewrite redraw_unfold, Hl.
  rewrite bool_decide_eq_true_2 by done.
  by rewrite (bind_run _ _ _ _ _ (random_operator_run n st Hn)).
Qed.

(** What the loop returns differs from the last operator of the
    string, and the loop touches nothing but the generator. *)
Lemma redraw_returns_new fuel n w op st op' st' :
  redraw_while_equal fuel n w op st = Ret (op', st') →
  ∃ prev g', last (operators_of w st) = Some prev ∧ op' ≠ prev ∧
             st' = with_rng g' st.
Proof.
  revert op st. induction fuel as [|fuel IH]; intros op st;
    rewrite redraw_unfold;
    destruct (last (operators_of w st)) as [prev|] eqn:Hl; try done;
    case_bool_decide as Heq; try done.
  - intros [= <- <-]. exists prev, (bs_rng st). by rewrite with_rng_same.
  - intros (op1 & st1 & E1 & E2)%bind_inv.
    apply random_operator_inv in E1 as (_ & -> & ->).
    apply IH in E2 as (prev' & g' & Hl' & Hne & ->).
    rewrite operators_of_with_rng, Hl in Hl'. injection Hl' as <-.
    by exists prev, g'.
  - intros [= <- <-]. exists prev, (bs_rng st). by rewrite with_rng_same.
Qed.

(** More fuel does not change what the loop returns. *)
Lemma redraw_mono fuel fuel' n w op st r :
  fuel ≤ fuel' →
  redraw_while_equal fuel n w op st = Ret r →
  redraw_while_equal fuel' n w op st = Ret r.
Proof.
  revert fuel' op st. induction fuel as [|fuel IH]; intros fuel' op st Hle;
    rewrite !redraw_unfold;
    destruct (last (operators_of w st)) as [prev|]; try done;
    case_bool_decide; try done.
  destruct fuel' as [|fuel']; [lia|].
  intros (op1 & st1 & E1 & E2)%bind_inv.
  rewrite (bind_run _ _ _ _ _ E1). apply IH; [lia|done].
Qed.

(** The loop returns once the source yields an operator other than
    the last of the string. *)
Lemma redraw_enough_fuel n w prev k :
  0 < n → ∀ op st,
  last (operators_of w st) = Some prev →
  kth_draw n k (bs_rng st) ≠ prev →
  ∃ op' g', redraw_while_equal (S k) n w op st = Ret (op', with_rng g' st).
Proof.
  intros Hn. induction k as [|k IH]; intros op st Hl Hk.
  - destruct (decide (op = prev)) as [->|Hne].
    + rewrite redraw_again by done. eexists _, _.
      apply (redraw_exit 0 n w _ prev); [|done].
      by rewrite operators_of_with_rng.
    + exists op, (bs_rng st). rewrite with_rng_same. by apply (redraw_exit _ _ _ _ prev).
  - destruct (decide (op = prev)) as [->|Hne].
    + rewrite redraw_again by done.
      destruct (IH (kth_draw n 0 (bs_rng st))
                   (with_rng (after_draws n 1 (bs_rng st)) st))
        as (op' & g' & E).
      * by rewrite operators_of_with_rng.
      * simpl. unfold kth_draw in *. by rewrite after_draws_succ.
      * exists op', g'. by rewrite E.
    + exists op, (bs_rng st). rewrite with_rng_same. by apply (redraw_exit _ _ _ _ prev).
Qed.

(** If the loop returns, the source did yield another operator. *)
Lemma redraw_returns_only_if fuel n w prev op st op' st' :
  last (operators_of w st) = Some prev →
  redraw_while_equal fuel n w op st = Ret (op', st') →
  op ≠ prev ∨ ∃ k, kth_draw n k (bs_rng st) ≠ prev.
Proof.
  revert op st. induction fuel as [|fuel IH]; intros op st Hl;
    rewrite redraw_unfold, Hl; case_bool_decide as Heq; auto; try done.
  intros (op1 & st1 & E1 & E2)%bind_inv.
  apply random_operator_inv in E1 as (_ & -> & ->).
  apply IH in E2 as [Hne|[k Hk]]; [| |by rewrite operators_of_with_rng].
  - right. by exists 0.
  - right. exists (S k). simpl in Hk. unfold kth_draw in *.
    by rewrite after_draws_succ in Hk.
Qed.

Lemma operators_of_append w op st st' :
  append_operator w op st = Ret (tt, st') →
  operators_of w st' = operators_of w st ++ [op] ∧
  operators_of (other w) st' = operators_of (other w) st.
Proof. intros [= <-]. by destruct w. Qed.

(** Lines 126-131: when the statement returns, it has appended to its
    string one operator other than the last, and kept the other
    string. *)
Lemma next_operator_appends fuel n w st st' :
  next_operator fuel n w st = Ret (tt, st') →
  ∃ prev op, last (operators_of w st) = Some prev ∧ op ≠ prev ∧
    operators_of w st' = operators_of w st ++ [op] ∧
    operators_of (other w) st' = operators_of (other w) st.
Proof.
  unfold next_operator.
  intros (op0 & st1 & E1 & (op & st2 & E2 & E3)%bind_inv)%bind_inv.
  apply random_operator_inv in E1 as (_ & _ & ->).
  apply redraw_returns_new in E2 as (prev & g' & Hl & Hne & ->).
  apply operators_of_append in E3 as [Ha Hb].
  rewrite operators_of_with_rng in Hl.
  rewrite !operators_of_with_rng in Ha, Hb.
  by exists prev, op.
Qed.

Lemma next_operator_mono fuel fuel' n w st r :
  fuel ≤ fuel' →
  next_operator fuel n w st = Ret r → next_operator fuel' n w st = Ret r.
Proof.
  intros Hle. unfold next_operator.
  intros (op0 & st1 & E1 & (op & st2 & E2 & E3)%bind_inv)%bind_inv.
  rewrite (bind_run _ _ _ _ _ E1).
  by rewrite (bind_run _ _ _ _ _ (redraw_mono _ _ _ _ _ _ _ Hle E2)).
Qed.

Lemma next_operator_enough_fuel n w st :
  0 < n → fair_source n → operators_of w st ≠ [] →
  ∃ fuel st', next_operator fuel n w st = Ret (tt, st').
Proof.
  intros Hn Hfair Hne.
  destruct (last (operators_of w st)) as [prev|] eqn:Hl;
    [|by apply last_None in Hl].
  set (st1 := with_rng (after_draws n 1 (bs_rng st)) st).
  destruct (Hfair (bs_rng st1) prev) as [k Hk].
  destruct (redraw_enough_fuel n w prev k Hn (kth_draw n 0 (bs_rng st)) st1)
    as (op' & g' & E);
    [by unfold st1; rewrite operators_of_with_rng|done|].
  exists (S k). eexists. unfold next_operator.
  rewrite (bind_run _ _ _ _ _ (random_operator_run n st Hn)).
  fold st1. by rewrite (bind_run _ _ _ _ _ E).
Qed.

(** The two statements of one iteration of the loop of line 123. *)
Lemma iteration_appends fuel n st st' :
  (next_operator fuel n TermA ;; next_operator fuel n TermB) st
    = Ret (tt, st') →
  ∃ pa a pb b,
    last (operators_a st) = Some pa ∧ a ≠ pa ∧
    operators_a st' = operators_a st ++ [a] ∧
    last (operators_b st) = Some pb ∧ b ≠ pb ∧
    operators_b st' = operators_b st ++ [b].
Proof.
  intros (u & st1 & E1 & E2)%bind_inv. destruct u.
  apply next_operator_appends in E1 as (pa & a & La & Na & Aa & Ab).
  apply next_operator_appends in E2 as (pb & b & Lb & Nb & Bb & Ba).
  simpl in *. exists pa, a, pb, b. rewrite Ba, Aa, Bb, Ab, <- Ab.
  by rewrite Lb.
Qed.

Lemma no_repeat_singleton op : no_repeat [op].
Proof. intros i x y _ Hy. by destruct i. Qed.

Lemma no_repeat_snoc l prev op :
  no_repeat l → last l = Some prev → op ≠ prev → no_repeat (l ++ [op]).
Proof.
  intros Hl Hlast Hne i x y Hx Hy.
  assert (S i < length (l ++ [op])) as Hi by by eapply lookup_lt_Some.
  rewrite length_app in Hi. simpl in Hi.
  destruct (decide (S i < length l)) as [Hlt|Hge].
  - rewrite lookup_app_l in Hx, Hy by lia. by apply (Hl i).
  - assert (S i = length l) as Hi' by lia.
    rewrite lookup_app_l in Hx by lia.
    rewrite lookup_app_r, Hi', Nat.sub_diag in Hy by lia.
    injection Hy as <-.
    rewrite last_lookup, <- Hi' in Hlast. simpl in Hlast.
    congruence.
Qed.

Lemma initial_operators_inv n g st0 g0 :
  initial_operators n g = Ret (st0, g0) →
  0 < n ∧ ∃ a b, operators_a st0 = [a] ∧ operators_b st0 = [b].
Proof.
  unfold initial_operators. destruct (Nat.eqb_spec n 0) as [->|Hn]; [done|].
  destruct (randint n g) as [ma g1], (randint 2 g1) as [fa g2],
    (randint n g2) as [mb g3], (randint 2 g3) as [fb g4].
  intros [= <- <-]. split; [lia|]. by eexists _, _.
Qed.

Lemma initial_operators_run n g :
  0 < n → ∃ st0 g0, initial_operators n g = Ret (st0, g0).
Proof.
  intros Hn. unfold initial_operators.
  destruct (Nat.eqb_spec n 0) as [->|_]; [lia|].
  destruct (randint n g) as [ma g1], (randint 2 g1) as [fa g2],
    (randint n g2) as [mb g3], (randint 2 g3) as [fb g4].
  by eexists _, _.
Qed.

Lemma bench_randn_run st :
  bench_randn st = Ret ((randn (bs_rng st)).1, with_rng (randn (bs_rng st)).2 st).
Proof. unfold bench_randn. by destruct (randn (bs_rng st)). Qed.

(** The terms the benchmark returns hold the strings the loop of line
    123 leaves, started from the two one-element strings. *)
Lemma benchmark_fermion_terms_inv fuel n L g ta tb g' :
  benchmark_fermion_terms fuel n L g = Ret ((ta, tb), g') →
  ∃ st0 g0 st1,
    initial_operators n g = Ret (st0, g0) ∧
    for_range L (λ _, next_operator fuel n TermA ;;
                      next_operator fuel n TermB) st0 = Ret (tt, st1) ∧
    term_operators ta = operators_a st1 ∧
    term_operators tb = operators_b st1.
Proof.
  unfold benchmark_fermion_terms.
  destruct (initial_operators n g) as [[st0 g0]| |]; [|done..].
  match goal with |- context [mbind ?k ?m st0] =>
    destruct (mbind k m st0) as [[[ca cb] st]| |] eqn:E end; [|done..].
  intros [= <- <- <-]. simpl.
  apply bind_inv in E as (u & st1 & E1 & E2). destruct u.
  rewrite (bind_run _ _ _ _ _ (bench_randn_run st1)) in E2.
  rewrite (bind_run _ _ _ _ _ (bench_randn_run _)) in E2.
  injection E2 as <- <- <-. by exists st0, g0, st1.
Qed.

Lemma benchmark_fermion_terms_run fuel n L g st0 g0 st1 :
  initial_operators n g = Ret (st0, g0) →
  for_range L (λ _, next_operator fuel n TermA ;;
                    next_operator fuel n TermB) st0 = Ret (tt, st1) →
  ∃ ta tb g', benchmark_fermion_terms fuel n L g = Ret ((ta, tb), g').
Proof.
  intros E0 E1. unfold benchmark_fermion_terms. rewrite E0.
  rewrite (bind_run _ _ _ _ _ E1).
  rewrite (bind_run _ _ _ _ _ (bench_randn_run st1)).
  rewrite (bind_run _ _ _ _ _ (bench_randn_run _)).
  by eexists _, _, _.
Qed.

(** On a fair source the benchmark builds its two terms, given fuel. *)
Lemma benchmark_fermion_terms_enough_fuel n L g :
  0 < n → fair_source n →
  ∃ fuel ta tb g', benchmark_fermion_terms fuel n L g = Ret ((ta, tb), g').
Proof.
  intros Hn Hfair.
  destruct (initial_operators_run n g Hn) as (st0 & g0 & E0).
  destruct (initial_operators_inv _ _ _ _ E0) as (_ & a & b & Ha & Hb).
  destruct (for_each_enough_fuel
    (λ st, operators_a st ≠ [] ∧ operators_b st ≠ [])
    (λ fuel _, next_operator fuel n TermA ;; next_operator fuel n TermB)
    (seq 0 L)) with (st := st0) as (fuel & st1 & E1 & _).
  - intros f f' _ st r Hle (u & st1 & E1 & E2)%bind_inv.
    rewrite (bind_run _ _ _ _ _ (next_operator_mono _ _ _ _ _ _ Hle E1)).
    by apply (next_operator_mono f).
  - intros _ st [Hna Hnb].
    destruct (next_operator_enough_fuel n TermA st Hn Hfair Hna)
      as (f1 & st1 & E1).
    pose proof (next_operator_appends _ _ _ _ _ E1) as (_ & x & _ & _ & Ax & Bx).
    simpl in Ax, Bx.
    destruct (next_operator_enough_fuel n TermB st1 Hn Hfair)
      as (f2 & st2 & E2); [simpl; congruence|].
    pose proof (next_operator_appends _ _ _ _ _ E2) as (_ & y & _ & _ & By & Ay).
    simpl in Ay, By.
    exists (f1 `max` f2), st2. split.
    + rewrite (bind_run _ _ _ _ _
        (next_operator_mono _ _ _ _ _ _ (Nat.le_max_l f1 f2) E1)).
      by apply (next_operator_mono f2); [apply Nat.le_max_r|].
    + rewrite Ay, Ax, By. split; by intros [_ [=]]%app_nil.
  - rewrite Ha, Hb. done.
  - exists fuel. by apply (benchmark_fermion_terms_run fuel n L g st0 g0 st1).
Qed.

(** C7. For a mode count of at least 1 and a term length of at least 2,
    neither operator string of the two terms the benchmark builds has
    two consecutive equal (mode, flag) pairs; and on a source that
    eventually yields a different pair the benchmark does build them. *)
Theorem terms_without_consecutive_repeat n L g :
  1 ≤ n → 2 ≤ L →
  (∀ fuel ta tb g',
     benchmark_fermion_terms fuel n L g = Ret ((ta, tb), g') →
     no_repeat (term_operators ta) ∧ no_repeat (term_operators tb)) ∧
  (fair_source n →
   ∃ fuel ta tb g', benchmark_fermion_terms fuel n L g = Ret ((ta, tb), g')).
Proof.
  intros Hn _. split; [|by apply benchmark_fermion_terms_enough_fuel].
  intros fuel ta tb g'
    (st0 & g0 & st1 & E0 & E1 & -> & ->)%benchmark_fermion_terms_inv.
  apply initial_operators_inv in E0 as (_ & a & b & Ha & Hb).
  apply (for_each_counted
    (λ _ st, no_repeat (operators_a st) ∧ no_repeat (operators_b st))
    _ _ ) with (k := 0) (st := st0) in E1; [done| |].
  - intros _ _ st st' [Ia Ib]
      (pa & x & pb & y & La & Na & -> & Lb & Nb & ->)%iteration_appends.
    split; by eapply no_repeat_snoc.
  - rewrite Ha, Hb. split; apply no_repeat_singleton.
Qed.

(** C10. For every term length, each of the two terms the benchmark
    builds holds term_length + 1 (mode, flag) pairs; and on a source
    that eventually yields a different pair, with at least one mode,
    the benchmark does build them. *)
Theorem terms_hold_length_plus_one n L g :
  (∀ fuel ta tb g',
     benchmark_fermion_terms fuel n L g = Ret ((ta, tb), g') →
     length (term_operators ta) = L + 1 ∧
     length (term_operators tb) = L + 1) ∧
  (0 < n → fair_source n →
   ∃ fuel ta tb g', benchmark_fermion_terms fuel n L g = Ret ((ta, tb), g')).
Proof.
  split; [|by apply benchmark_fermion_terms_enough_fuel].
  intros fuel ta tb g'
    (st0 & g0 & st1 & E0 & E1 & -> & ->)%benchmark_fermion_terms_inv.
  apply initial_operators_inv in E0 as (_ & a & b & Ha & Hb).
  apply (for_each_counted
    (λ k st, length (operators_a st) = S k ∧ length (operators_b st) = S k)
    _ _ ) with (k := 0) (st := st0) in E1.
  - rewrite length_seq in E1. simpl in E1. lia.
  - intros k _ st st' [Ia Ib]
      (pa & x & pb & y & La & Na & -> & Lb & Nb & ->)%iteration_appends.
    rewrite !length_app. simpl. lia.
  - by rewrite Ha, Hb.
Qed.

(** C9. For a mode count above 1, the redraw loop entered with
    candidate [op] while the string ends in [prev] returns, given
    fuel, exactly when the candidate or some later draw of the source
    differs from [prev]; and what it returns differs from [prev]. *)
Theorem redraw_loop_terminates n w st prev op :
  1 < n → last (operators_of w st) = Some prev →
  ((op ≠ prev ∨ ∃ k, kth_draw n k (bs_rng st) ≠ prev) ↔
   ∃ fuel op' st', redraw_while_equal fuel n w op st = Ret (op', st')) ∧
  (∀ fuel op' st',
     redraw_while_equal fuel n w op st = Ret (op', st') → op' ≠ prev).
Proof.
  intros Hn Hl. split; [split|].
  - intros [Hne|[k Hk]].
    + exists 0, op, st. by apply (redraw_exit _ _ _ _ prev).
    + destruct (redraw_enough_fuel n w prev k ltac:(lia) op st Hl Hk)
        as (op' & g' & E).
      by exists (S k), op', (with_rng g' st).
  - intros (fuel & op' & st' & E). by eapply redraw_returns_only_if.
  - intros fuel op' st' (prev' & g' & Hl' & Hne & _)%redraw_returns_new.
    congruence.
Qed.

End Benchmark.

(** ** Runs on the counting source *)

Section Runs.

(** The counting source flips the flag it yields every four operator
    draws, so it is fair for every mode count. *)
Lemma counting_source_fair n : @fair_source counting_source n.
Proof.
  intros g prev.
  destruct (decide (@kth_draw counting_source n 0 g = prev)) as [<-|Hne];
    [exists 4|by exists 0].
  intros Hflag%(f_equal snd).
  change ((S (8 + g) / 8) mod 2 = (S g / 8) mod 2) in Hflag.
  replace (S (8 + g)) with (S g + 1 * 8) in Hflag by lia.
  rewrite Nat.div_add in Hflag by lia.
  pose proof (Nat.div_mod_eq (S g / 8) 2).
  pose proof (Nat.div_mod_eq (S g / 8 + 1) 2).
  pose proof (Nat.mod_upper_bound (S g / 8) 2).
  pose proof (Nat.mod_upper_bound (S g / 8 + 1) 2).
  lia.
Qed.

(** C1 at mode count 3 and the quadruple (0, 1, 0, 2). *)
Lemma two_body_mirror_symmetry_witness :
  (0 < 3 ∧ 1 < 3 ∧ 0 < 3 ∧ 2 < 3) ∧
  ∃ op g' v, @artificial_molecular_operator counting_source 3 0 = Ret (op, g') ∧
    getitem (two_body_tensor op) [0; 1; 0; 2] = Ret v ∧
    getitem (two_body_tensor op) [2; 0; 1; 0] = Ret v.
Proof.
  split; [lia|].
  apply (two_body_mirror_symmetry (NP:=counting_source) 3 0 0 1 0 2); lia.
Defined.

(** The four-valued case at mode count 4: of (0, 1, 2, 3) and its
    mirror (3, 2, 1, 0) the mirror is the one skipped. *)
Lemma conjugate_orbit_representatives_witness :
  (0 < 4 ∧ 1 < 4 ∧ 2 < 4 ∧ 3 < 4 ∧ 0 ≠ 1 ∧ 2 ≠ 3 ∧
   @gen_shaped counting_source 4 (@gen_init counting_source 4 0)) ∧
  (assigned 0 1 2 3 = true ∨ assigned 3 2 1 0 = true) ∧
  ([0; 1; 2; 3] ≠ [3; 2; 1; 0] →
   size (list_to_set [0; 1; 2; 3] : gset nat) ≠ 3 →
   assigned 0 1 2 3 = negb (assigned 3 2 1 0)) ∧
  ∃ st', @two_body_terms counting_source 0 1 2 3 (@gen_init counting_source 4 0)
           = Ret (tt, st') ∧
    gs_rng st' =
      if assigned 0 1 2 3 then (@randn counting_source 0).2 else 0.
Proof.
  split.
  - repeat split; lia.
  - apply (conjugate_orbit_representatives (NP:=counting_source) 4 0 1 2 3
             (@gen_init counting_source 4 0)); try lia.
    repeat split.
Defined.

(** C2. The code misses the claim at mode count 3. The quadruple
    (0, 1, 0, 2) has exactly three distinct index values and is not its
    own mirror; neither branch of lines 56-63 applies to it or to its
    mirror (2, 0, 1, 0), so both are assigned and the loop body draws
    at each. In the run on the counting source, whose k-th sample is
    k, 39 samples are drawn; both entries end with sample 31, and
    sample 4 is in neither array nor the constant: it was drawn for
    the orbit and overwritten. *)
Lemma three_valued_orbit_assigned_twice :
  size (list_to_set [0; 1; 0; 2] : gset nat) = 3 ∧
  [0; 1; 0; 2] ≠ [2; 0; 1; 0] ∧
  assigned 0 1 0 2 = true ∧ assigned 2 0 1 0 = true ∧
  (∃ st', @two_body_terms counting_source 0 1 0 2 (@gen_init counting_source 3 0)
            = Ret (tt, st') ∧ gs_rng st' = (@randn counting_source 0).2) ∧
  (∃ st', @two_body_terms counting_source 2 0 1 0 (@gen_init counting_source 3 0)
            = Ret (tt, st') ∧ gs_rng st' = (@randn counting_source 0).2) ∧
  ∃ op, @artificial_molecular_operator counting_source 3 0 = Ret (op, 39) ∧
    getitem (two_body_tensor op) [0; 1; 0; 2] = Ret 31 ∧
    getitem (two_body_tensor op) [2; 0; 1; 0] = Ret 31 ∧
    constant op = 1 ∧
    Forall (λ v, v ≠ 4) (data (one_body_tensor op)) ∧
    Forall (λ v, v ≠ 4) (data (two_body_tensor op)).
Proof.
  split; [by vm_compute|]. split; [done|].
  split; [by vm_compute|]. split; [by vm_compute|].
  split; [eexists; split; by vm_compute|].
  split; [eexists; split; by vm_compute|].
  eexists. split; [by vm_compute|].
  split; [by vm_compute|]. split; [by vm_compute|]. split; [by vm_compute|].
  split; cbv; repeat (constructor; [discriminate|]); constructor.
Qed.

(** C3 as stated fails at mode count 2: the entries at (0, 1, 1, 0)
    and at its image (1, 0, 0, 1) under (p, q, r, s) -> (q, p, s, r)
    are two different samples. *)
Lemma pair_swap_symmetry_fails :
  ∃ op g', @artificial_molecular_operator counting_source 2 0 = Ret (op, g') ∧
    getitem (two_body_tensor op) [0; 1; 1; 0] = Ret 4 ∧
    getitem (two_body_tensor op) [1; 0; 0; 1] = Ret 5.
Proof. eexists _, _. split; [by vm_compute|]. split; by vm_compute. Qed.

(** C4 at mode count 3 and the pair (0, 2). *)
Lemma one_body_spin_blocks_witness :
  (0 < 3 ∧ 2 < 3) ∧
  ∃ op g', @artificial_molecular_operator counting_source 3 0 = Ret (op, g') ∧
    (0 mod 2 ≠ 2 mod 2 → getitem (one_body_tensor op) [0; 2] = Ret 0) ∧
    (0 mod 2 = 2 mod 2 →
       ∃ v, getitem (one_body_tensor op) [0; 2] = Ret v ∧
            getitem (one_body_tensor op) [2; 0] = Ret v).
Proof.
  split; [lia|].
  apply (one_body_spin_blocks (NP:=counting_source) 3 0 0 2); lia.
Defined.

(** C5 at mode count 3 and the quadruple (1, 1, 0, 2). *)
Lemma two_body_pair_diagonal_zero_witness :
  (1 < 3 ∧ 1 < 3 ∧ 0 < 3 ∧ 2 < 3 ∧ (1 = 1 ∨ 0 = 2)) ∧
  ∃ op g', @artificial_molecular_operator counting_source 3 0 = Ret (op, g') ∧
    getitem (two_body_tensor op) [1; 1; 0; 2] = Ret 0.
Proof.
  split; [lia|].
  apply (two_body_pair_diagonal_zero (NP:=counting_source) 3 0 1 1 0 2); lia.
Defined.

(** C6 at mode count 3, both invocations from the reset source. *)
Lemma generator_deterministic_witness :
  0 = 0 ∧
  ∃ op g', @artificial_molecular_operator counting_source 3 0 = Ret (op, g') ∧
           @artificial_molecular_operator counting_source 3 0 = Ret (op, g').
Proof.
  split; [reflexivity|].
  apply (generator_deterministic (NP:=counting_source) 3 0 0). reflexivity.
Defined.

(** C7 at 3 modes and term length 4. *)
Lemma terms_without_consecutive_repeat_witness :
  (1 ≤ 3 ∧ 2 ≤ 4 ∧ @fair_source counting_source 3) ∧
  (∀ fuel ta tb g',
     @benchmark_fermion_terms counting_source fuel 3 4 0 = Ret ((ta, tb), g') →
     no_repeat (term_operators ta) ∧ no_repeat (term_operators tb)) ∧
  ∃ fuel ta tb g',
    @benchmark_fermion_terms counting_source fuel 3 4 0 = Ret ((ta, tb), g').
Proof.
  pose proof (terms_without_consecutive_repeat (NP:=counting_source) 3 4 0
                ltac:(lia) ltac:(lia)) as [Hsafe Hlive].
  split; [|split].
  - split; [lia|]. split; [lia|]. apply counting_source_fair.
  - exact Hsafe.
  - apply Hlive, counting_source_fair.
Defined.

(** C9 at 3 modes: the string ends in (0, 0), the candidate is (0, 0)
    again and so are the next two draws of the source, the one after
    is (1, 1). *)
Lemma redraw_loop_terminates_witness :
  (1 < 3 ∧ last (operators_of TermA collision_state) = Some (0, 0)) ∧
  (((0, 0) ≠ (0, 0) ∨
    ∃ k, @kth_draw counting_source 3 k 4 ≠ (0, 0)) ↔
   ∃ fuel op' st',
     @redraw_while_equal counting_source fuel 3 TermA (0, 0)
       collision_state
     = Ret (op', st')) ∧
  (∀ fuel op' st',
     @redraw_while_equal counting_source fuel 3 TermA (0, 0)
       collision_state
     = Ret (op', st') → op' ≠ (0, 0)).
Proof.
  split; [split; [lia|reflexivity]|].
  apply (redraw_loop_terminates (NP:=counting_source) 3 TermA
           collision_state
           (0, 0) (0, 0)); [lia|reflexivity].
Defined.

(** The loop of the run above does iterate: it has no result on two
    units of fuel and returns (1, 1) on three. *)
Example redraw_loop_iterates :
  @redraw_while_equal counting_source 2 3 TermA (0, 0) collision_state
  = OutOfFuel ∧
  @redraw_while_equal counting_source 3 3 TermA (0, 0) collision_state
  = Ret ((1, 1), with_rng 10 collision_state).
Proof. split; by vm_compute. Qed.

(** C10 at 3 modes and term length 4. *)
Lemma terms_hold_length_plus_one_witness :
  (0 < 3 ∧ @fair_source counting_source 3) ∧
  (∀ fuel ta tb g',
     @benchmark_fermion_terms counting_source fuel 3 4 0 = Ret ((ta, tb), g') →
     length (term_operators ta) = 4 + 1 ∧
     length (term_operators tb) = 4 + 1) ∧
  ∃ fuel ta tb g',
    @benchmark_fermion_terms counting_source fuel 3 4 0 = Ret ((ta, tb), g').
Proof.
  pose proof (terms_hold_length_plus_one (NP:=counting_source) 3 4 0)
    as [Hsafe Hlive].
  split; [|split].
  - split; [lia|]. apply counting_source_fair.
  - exact Hsafe.
  - apply Hlive; [lia|apply counting_source_fair].
Defined.

(** The benchmark on the counting source, 3 modes, term length 4: the
    strings it builds, with redraws along the way. *)
Example benchmark_fermion_terms_run_example :
  ∃ ta tb g',
    @benchmark_fermion_terms counting_source 2 3 4 0 = Ret ((ta, tb), g') ∧
    term_operators ta = [(0, 0); (1, 1); (2, 0); (0, 1); (1, 0)] ∧
    term_operators tb = [(0, 0); (1, 1); (2, 0); (0, 1); (1, 0)].
Proof. eexists _, _, _. split; [by vm_compute|]. split; by vm_compute. Qed.

End Runs.

(** ** Loops that count, loops that reach an index *)

Section CountingLoops.
Context {St : Type}.

(** A loop whose body moves a counted invariant on by [c i] moves it
    on by the sum of the [c i]. *)
Lemma for_each_counting (I : nat → St → Prop) (c : nat → nat) l
    (body : nat → M St unit) :
  (∀ i j st, i ∈ l → I j st →
     ∃ st', body i st = Ret (tt, st') ∧ I (j + c i) st') →
  ∀ j st, I j st →
    ∃ st', for_each l body st = Ret (tt, st') ∧ I (j + sum_list_with c l) st'.
Proof.
  induction l as [|i l IH]; intros Hbody j st HI; simpl.
  - exists st. by rewrite Nat.add_0_r.
  - destruct (Hbody i j st) as (st1 & E1 & H1); [left|done|].
    destruct (IH (λ i' j' st' Hi', Hbody i' j' st' (list_elem_of_further _ _ _ Hi'))
                 _ _ H1) as (st2 & E2 & H2).
    exists st2. rewrite (bind_run _ _ _ _ _ E1). split; [done|].
    by rewrite Nat.add_assoc.
Qed.

Lemma for_range_counting (I : nat → St → Prop) (c : nat → nat) n
    (body : nat → M St unit) :
  (∀ i j st, i < n → I j st →
     ∃ st', body i st = Ret (tt, st') ∧ I (j + c i) st') →
  ∀ j st, I j st →
    ∃ st', for_range n body st = Ret (tt, st') ∧
           I (j + sum_list_with c (seq 0 n)) st'.
Proof.
  intros Hbody. apply for_each_counting. intros i j st Hi.
  apply Hbody. apply elem_of_seq in Hi. lia.
Qed.

(** A counting loop that passes an index at which its body establishes
    [K], and whose body keeps [K] everywhere, establishes [K]. *)
Lemma for_each_visits (I K : nat → St → Prop) (c : nat → nat) l
    (body : nat → M St unit) i0 :
  i0 ∈ l →
  (∀ i j st, i ∈ l → I j st →
     ∃ st', body i st = Ret (tt, st') ∧ I (j + c i) st') →
  (∀ i j st, i ∈ l → I j st ∧ K j st →
     ∃ st', body i st = Ret (tt, st') ∧ I (j + c i) st' ∧ K (j + c i) st') →
  (∀ j st, I j st →
     ∃ st', body i0 st = Ret (tt, st') ∧ I (j + c i0) st' ∧ K (j + c i0) st') →
  ∀ j st, I j st →
    ∃ st', for_each l body st = Ret (tt, st') ∧
      I (j + sum_list_with c l) st' ∧ K (j + sum_list_with c l) st'.
Proof.
  intros Hin HI HK Hest. induction l as [|i l IH]; intros j st Hst; simpl.
  - by apply elem_of_nil in Hin.
  - apply elem_of_cons in Hin as [<-|Hin].
    + destruct (Hest j st Hst) as (st1 & E1 & H1).
      destruct (for_each_counting (λ j st, I j st ∧ K j st) c l body)
        with (j := j + c i0) (st := st1) as (st2 & E2 & H2); [|done|].
      { intros i j' st' Hi. apply HK. by right. }
      exists st2. rewrite (bind_run _ _ _ _ _ E1). by rewrite Nat.add_assoc.
    + destruct (HI i j st) as (st1 & E1 & I1); [left|done|].
      destruct IH with (j := j + c i) (st := st1) as (st2 & E2 & H2);
        try done.
      { intros i' j' st' Hi. apply HI. by right. }
      { intros i' j' st' Hi. apply HK. by right. }
      exists st2. rewrite (bind_run _ _ _ _ _ E1). by rewrite Nat.add_assoc.
Qed.

Lemma for_range_visits (I K : nat → St → Prop) (c : nat → nat) n
    (body : nat → M St unit) i0 :
  i0 < n →
  (∀ i j st, i < n → I j st →
     ∃ st', body i st = Ret (tt, st') ∧ I (j + c i) st') →
  (∀ i j st, i < n → I j st ∧ K j st →
     ∃ st', body i st = Ret (tt, st') ∧ I (j + c i) st' ∧ K (j + c i) st') →
  (∀ j st, I j st →
     ∃ st', body i0 st = Ret (tt, st') ∧ I (j + c i0) st' ∧ K (j + c i0) st') →
  ∀ j st, I j st →
    ∃ st', for_range n body st = Ret (tt, st') ∧
      I (j + sum_list_with c (seq 0 n)) st' ∧
      K (j + sum_list_with c (seq 0 n)) st'.
Proof.
  intros Hi HI HK. apply for_each_visits.
  - apply elem_of_seq. lia.
  - intros i j st Hin. apply HI. apply elem_of_seq in Hin. lia.
  - intros i j st Hin. apply HK. apply elem_of_seq in Hin. lia.
Qed.

End CountingLoops.

(** ** The samples the generator draws *)

Section Samples.
Context {NP : Numpy}.
Implicit Types (st : gen_state) (g : rng) (J : nat → gen_state → Prop).

Lemma advance_succ j g : advance (S j) g = (randn (advance j g)).2.
Proof. done. Qed.

Lemma generator_draws_by_loop n :
  generator_draws n = 1 + sum_list_with (draws_p n) (seq 0 n).
Proof. done. Qed.

Lemma one_body_terms_at n g p q j st :
  gen_at n g j st → p < n → q < n →
  ∃ st', one_body_terms p q st = Ret (tt, st') ∧
         gen_at n g (j + Nat.b2n (same_spin p q)) st'.
Proof.
  intros [Hsh Hg] Hp Hq.
  destruct (one_body_terms_spec n p q st Hsh Hp Hq)
    as (st' & E & Hsh' & _ & Hskip & Hdraw).
  exists st'. split; [done|]. split; [done|].
  destruct (same_spin p q); simpl.
  - destruct (Hdraw eq_refl) as (v & Hv & _).
    rewrite Nat.add_1_r, advance_succ, <- Hg. by rewrite Hv.
  - by rewrite Nat.add_0_r, (Hskip eq_refl).
Qed.

Lemma two_body_terms_at n g p q r s j st :
  gen_at n g j st → p < n → q < n → r < n → s < n →
  ∃ st', two_body_terms p q r s st = Ret (tt, st') ∧
         gen_at n g (j + Nat.b2n (assigned p q r s)) st'.
Proof.
  intros [Hsh Hg] Hp Hq Hr Hs.
  destruct (two_body_terms_spec n p q r s st Hsh Hp Hq Hr Hs)
    as (st' & E & Hsh' & _ & Hskip & Hdraw).
  exists st'. split; [done|]. split; [done|].
  destruct (assigned p q r s); simpl.
  - destruct (Hdraw eq_refl) as (v & Hv & _).
    rewrite Nat.add_1_r, advance_succ, <- Hg. by rewrite Hv.
  - by rewrite Nat.add_0_r, (Hskip eq_refl).
Qed.

Lemma gen_at_counted_steps n g : counted_steps n (gen_at n g).
Proof.
  split.
  - intros. by apply one_body_terms_at.
  - intros. by apply two_body_terms_at.
Qed.

(** The two inner loops at [(p, q)]. *)
Lemma rs_loops_counted n J p q :
  counted_steps n J → p < n → q < n →
  ∀ j st, J j st →
    ∃ st', for_range n (λ r, for_range n (λ s, two_body_terms p q r s)) st
           = Ret (tt, st') ∧
           J (j + sum_list_with (draws_rs n p q) (seq 0 n)) st'.
Proof.
  intros [_ H2] Hp Hq. apply for_range_counting. intros r j st Hr.
  apply for_range_counting. intros s j' st' Hs. by apply H2.
Qed.

(** One pass of the loop over [q]. *)
Lemma q_body_counted n J p q :
  counted_steps n J → p < n → q < n →
  ∀ j st, J j st →
    ∃ st', (one_body_terms p q ;;
            for_range n (λ r, for_range n (λ s, two_body_terms p q r s))) st
           = Ret (tt, st') ∧
           J (j + draws_q n p q) st'.
Proof.
  intros HJ Hp Hq j st Hst.
  destruct (proj1 HJ p q j st Hp Hq Hst) as (st1 & E1 & H1).
  destruct (rs_loops_counted n J p q HJ Hp Hq _ _ H1) as (st2 & E2 & H2).
  exists st2. rewrite (bind_run _ _ _ _ _ E1). split; [done|].
  unfold draws_q. by rewrite Nat.add_assoc.
Qed.

(** One pass of the loop over [p]. *)
Lemma p_body_counted n J p :
  counted_steps n J → p < n →
  ∀ j st, J j st →
    ∃ st', for_range n (λ q,
             one_body_terms p q ;;
             for_range n (λ r, for_range n (λ s, two_body_terms p q r s))) st
           = Ret (tt, st') ∧
           J (j + draws_p n p) st'.
Proof.
  intros HJ Hp. apply for_range_counting. intros q j st Hq.
  by apply q_body_counted.
Qed.

(** The four loops move a counted invariant of the two bodies on by
    the draws of the run, the constant's apart. *)
Lemma generate_integrals_counted n J :
  counted_steps n J →
  ∀ j st, J j st →
    ∃ st', generate_integrals n st = Ret (tt, st') ∧
           J (j + sum_list_with (draws_p n) (seq 0 n)) st'.
Proof.
  intros HJ. apply for_range_counting. intros p j st Hp.
  by apply p_body_counted.
Qed.

Lemma artificial_molecular_operator_of_loops n g st' :
  generate_integrals n (gen_init n (randn g).2) = Ret (tt, st') →
  artificial_molecular_operator n g =
    Ret ({| constant := (randn g).1;
            one_body_tensor := one_body_coefficients st';
            two_body_tensor := two_body_coefficients st' |}, gs_rng st').
Proof.
  intros E. unfold artificial_molecular_operator.
  destruct (randn g) as [c g1]. simpl in E. unfold gen_init in E.
  by rewrite E.
Qed.

Lemma gen_init_at n g : gen_at n g 1 (gen_init n (randn g).2).
Proof. split; [apply gen_init_shaped|done]. Qed.

(** The draws of one run. *)
Lemma generator_draws_of_run n g :
  ∃ op g', artificial_molecular_operator n g = Ret (op, g') ∧
           g' = advance (generator_draws n) g.
Proof.
  destruct (generate_integrals_counted n (gen_at n g)
              (gen_at_counted_steps n g) 1 _ (gen_init_at n g))
    as (st' & E & _ & Hg).
  eexists _, _. split; [by apply artificial_molecular_operator_of_loops|].
  by rewrite generator_draws_by_loop.
Qed.

(** X2. The generator returns with the source advanced by exactly
    [generator_draws n] calls of [randn], a number fixed by the mode
    count: one call for the constant, one per ordered pair of equal
    parity and one per assigned quadruple. *)
Theorem generator_consumes_fixed_draws n g :
  ∃ op g', artificial_molecular_operator n g = Ret (op, g') ∧
           g' = advance (generator_draws n) g.
Proof.
  unfold artificial_molecular_operator.
  destruct (randn g) as [c g1] eqn:Hc.
  destruct (for_range_counting (gen_at n g)
    (λ p, sum_list_with (λ q,
       Nat.b2n (same_spin p q) +
       sum_list_with (λ r,
         sum_list_with (λ s, Nat.b2n (assigned p q r s)) (seq 0 n))
         (seq 0 n)) (seq 0 n)) n
    (λ p, for_range n (λ q,
       one_body_terms p q ;;
       for_range n (λ r, for_range n (λ s, two_body_terms p q r s)))))
    with (j := 1) (st := gen_init n g1) as (st' & E & Hsh & Hg).
  - intros p j st Hp. apply for_range_counting. clear j st.
    intros q j st Hq Hst.
    destruct (one_body_terms_at n g p q j st Hst Hp Hq) as (st1 & E1 & H1).
    destruct (for_range_counting (gen_at n g)
      (λ r, sum_list_with (λ s, Nat.b2n (assigned p q r s)) (seq 0 n)) n
      (λ r, for_range n (λ s, two_body_terms p q r s)))
      with (j := j + Nat.b2n (same_spin p q)) (st := st1)
      as (st2 & E2 & H2); [|done|].
    + intros r j' st' Hr. apply for_range_counting.
      intros s j'' st'' Hs Hst''. by apply two_body_terms_at.
    + exists st2. rewrite (bind_run _ _ _ _ _ E1). split; [done|].
      by rewrite Nat.add_assoc.
  - split; [apply gen_init_shaped|]. simpl. unfold advance. simpl.
    by rewrite Hc.
  - unfold gen_init, generate_integrals in *. rewrite E.
    eexists _, _. split; [done|]. simpl. rewrite Hg.
    by unfold generator_draws.
Qed.

End Samples.

(** ** Entries that hold samples *)

Section Written.
Context {NP : Numpy}.
Implicit Types (st : gen_state) (g : rng) (I K : nat → gen_state → Prop).

(** The loops establish, with the count of the run, what the innermost
    body establishes at one quadruple and every body keeps. *)
Lemma generate_integrals_visits_two I K n p0 q0 r0 s0 :
  p0 < n → q0 < n → r0 < n → s0 < n →
  counted_steps n I →
  counted_steps n (λ j st, I j st ∧ K j st) →
  (∀ j st, I j st →
     ∃ st', two_body_terms p0 q0 r0 s0 st = Ret (tt, st') ∧
       I (j + Nat.b2n (assigned p0 q0 r0 s0)) st' ∧
       K (j + Nat.b2n (assigned p0 q0 r0 s0)) st') →
  ∀ j st, I j st →
    ∃ st', generate_integrals n st = Ret (tt, st') ∧
      I (j + sum_list_with (draws_p n) (seq 0 n)) st' ∧
      K (j + sum_list_with (draws_p n) (seq 0 n)) st'.
Proof.
  intros Hp Hq Hr Hs HI HK Hest. unfold generate_integrals.
  apply (for_range_visits I K (draws_p n) n _ p0 Hp).
  { intros p j st Hp'. by apply p_body_counted. }
  { intros p j st Hp'. by apply (p_body_counted n (λ j st, I j st ∧ K j st)). }
  apply (for_range_visits I K (draws_q n p0) n _ q0 Hq).
  { intros q j st Hq'. by apply q_body_counted. }
  { intros q j st Hq'. by apply (q_body_counted n (λ j st, I j st ∧ K j st)). }
  intros j st Hst.
  destruct (proj1 HI p0 q0 j st Hp Hq Hst) as (st1 & E1 & H1).
  rewrite (bind_run _ _ _ _ _ E1). unfold draws_q. rewrite Nat.add_assoc.
  revert H1. generalize (j + Nat.b2n (same_spin p0 q0)). clear j st Hst E1.
  revert st1.
  assert (∀ j st, I j st →
    ∃ st', for_range n (λ r, for_range n (λ s, two_body_terms p0 q0 r s)) st
           = Ret (tt, st') ∧
      I (j + sum_list_with (draws_rs n p0 q0) (seq 0 n)) st' ∧
      K (j + sum_list_with (draws_rs n p0 q0) (seq 0 n)) st') as Hrs;
    [|by intros st1 j H1; apply Hrs].
  apply (for_range_visits I K (draws_rs n p0 q0) n _ r0 Hr).
  { intros r j st Hr'. apply for_range_counting. intros s j' st' Hs'.
    by apply (proj2 HI). }
  { intros r j st Hr'.
    apply (for_range_counting (λ j st, I j st ∧ K j st)).
    intros s j' st' Hs'. by apply (proj2 HK). }
  apply (for_range_visits I K (λ s, Nat.b2n (assigned p0 q0 r0 s)) n _ s0 Hs).
  { intros s j st Hs'. by apply (proj2 HI). }
  { intros s j st Hs'. by apply (proj2 HK). }
  done.
Qed.

(** The same for what the one-body statement establishes at a pair. *)
Lemma generate_integrals_visits_one I K n p0 q0 :
  p0 < n → q0 < n →
  counted_steps n I →
  counted_steps n (λ j st, I j st ∧ K j st) →
  (∀ j st, I j st →
     ∃ st', one_body_terms p0 q0 st = Ret (tt, st') ∧
       I (j + Nat.b2n (same_spin p0 q0)) st' ∧
       K (j + Nat.b2n (same_spin p0 q0)) st') →
  ∀ j st, I j st →
    ∃ st', generate_integrals n st = Ret (tt, st') ∧
      I (j + sum_list_with (draws_p n) (seq 0 n)) st' ∧
      K (j + sum_list_with (draws_p n) (seq 0 n)) st'.
Proof.
  intros Hp Hq HI HK Hest. unfold generate_integrals.
  apply (for_range_visits I K (draws_p n) n _ p0 Hp).
  { intros p j st Hp'. by apply p_body_counted. }
  { intros p j st Hp'. by apply (p_body_counted n (λ j st, I j st ∧ K j st)). }
  apply (for_range_visits I K (draws_q n p0) n _ q0 Hq).
  { intros q j st Hq'. by apply q_body_counted. }
  { intros q j st Hq'. by apply (q_body_counted n (λ j st, I j st ∧ K j st)). }
  intros j st Hst.
  destruct (Hest j st Hst) as (st1 & E1 & H1).
  rewrite (bind_run _ _ _ _ _ E1). unfold draws_q. rewrite Nat.add_assoc.
  by apply (rs_loops_counted n (λ j st, I j st ∧ K j st)).
Qed.

(** The sample lines 66-68 write is the one the count points at. *)
Lemma two_body_terms_writes_sample n g p q r s j st :
  gen_at n g j st → p < n → q < n → r < n → s < n →
  assigned p q r s = true →
  ∃ st', two_body_terms p q r s st = Ret (tt, st') ∧
    gen_at n g (j + 1) st' ∧
    one_body_coefficients st' = one_body_coefficients st ∧
    getitem (two_body_coefficients st') [p; q; r; s] = Ret (sample j g) ∧
    getitem (two_body_coefficients st') [s; r; q; p] = Ret (sample j g) ∧
    ∀ idx, idx ≠ [p; q; r; s] → idx ≠ [s; r; q; p] →
      getitem (two_body_coefficients st') idx
      = getitem (two_body_coefficients st) idx.
Proof.
  intros Hat Hp Hq Hr Hs Ha.
  destruct (two_body_terms_at n g p q r s j st Hat Hp Hq Hr Hs)
    as (st' & E & Hat').
  rewrite Ha in Hat'. destruct Hat as [Hsh Hj].
  destruct (two_body_terms_spec n p q r s st Hsh Hp Hq Hr Hs)
    as (st'' & E' & _ & Hone & _ & Hdraw).
  rewrite E in E'. injection E' as <-.
  destruct (Hdraw Ha) as (v & Hv & G1 & G2 & Ho).
  exists st'. do 3 (split; [done|]).
  unfold sample. rewrite <- Hj, Hv. done.
Qed.

Lemma one_body_terms_writes_sample n g p q j st :
  gen_at n g j st → p < n → q < n → same_spin p q = true →
  ∃ st', one_body_terms p q st = Ret (tt, st') ∧
    gen_at n g (j + 1) st' ∧
    two_body_coefficients st' = two_body_coefficients st ∧
    getitem (one_body_coefficients st') [p; q] = Ret (sample j g) ∧
    getitem (one_body_coefficients st') [q; p] = Ret (sample j g) ∧
    ∀ idx, idx ≠ [p; q] → idx ≠ [q; p] →
      getitem (one_body_coefficients st') idx
      = getitem (one_body_coefficients st) idx.
Proof.
  intros Hat Hp Hq Ha.
  destruct (one_body_terms_at n g p q j st Hat Hp Hq) as (st' & E & Hat').
  rewrite Ha in Hat'. destruct Hat as [Hsh Hj].
  destruct (one_body_terms_spec n p q st Hsh Hp Hq)
    as (st'' & E' & _ & Htwo & _ & Hdraw).
  rewrite E in E'. injection E' as <-.
  destruct (Hdraw Ha) as (v & Hv & G1 & G2 & Ho).
  exists st'. do 3 (split; [done|]).
  unfold sample. rewrite <- Hj, Hv. done.
Qed.

(** The loops run with at least the constant drawn. *)
Lemma gen_at_positive_steps n g :
  counted_steps n (λ j st, gen_at n g j st ∧ 1 ≤ j).
Proof.
  split.
  - intros p q j st Hp Hq [Hat Hj].
    destruct (one_body_terms_at n g p q j st Hat Hp Hq) as (st' & E & H').
    exists st'. split; [done|]. split; [done|lia].
  - intros p q r s j st Hp Hq Hr Hs [Hat Hj].
    destruct (two_body_terms_at n g p q r s j st Hat Hp Hq Hr Hs)
      as (st' & E & H').
    exists st'. split; [done|]. split; [done|lia].
Qed.

(** Once an entry of the two-body array holds a sample drawn after the
    constant, it holds one from then on. *)
Lemma two_body_sample_kept n g idx :
  counted_steps n (λ j st, (gen_at n g j st ∧ 1 ≤ j) ∧
    ∃ k, 1 ≤ k < j ∧
      getitem (two_body_coefficients st) idx = Ret (sample k g)).
Proof.
  split.
  - intros p q j st Hp Hq [[Hat Hj] (k & Hk & G)].
    destruct (one_body_terms_at n g p q j st Hat Hp Hq) as (st' & E & H').
    destruct Hat as [Hsh _].
    destruct (one_body_terms_spec n p q st Hsh Hp Hq)
      as (st'' & E' & _ & Htwo & _).
    rewrite E in E'. injection E' as <-.
    exists st'. split; [done|]. split; [split; [done|lia]|].
    exists k. rewrite Htwo. split; [lia|done].
  - intros p q r s j st Hp Hq Hr Hs [[Hat Hj] (k & Hk & G)].
    destruct (assigned p q r s) eqn:Ha; simpl.
    + destruct (two_body_terms_writes_sample n g p q r s j st Hat
                  Hp Hq Hr Hs Ha) as (st' & E & H' & _ & G1 & G2 & Ho).
      exists st'. split; [done|]. split; [split; [done|lia]|].
      destruct (decide (idx = [p; q; r; s])) as [->|N1];
        [exists j; split; [lia|done]|].
      destruct (decide (idx = [s; r; q; p])) as [->|N2];
        [exists j; split; [lia|done]|].
      exists k. rewrite Ho by done. split; [lia|done].
    + destruct (two_body_terms_at n g p q r s j st Hat Hp Hq Hr Hs)
        as (st' & E & H').
      destruct Hat as [Hsh Hg].
      destruct (two_body_terms_spec n p q r s st Hsh Hp Hq Hr Hs)
        as (st'' & E' & _ & _ & Hskip & _).
      rewrite E in E'. injection E' as <-. rewrite Ha in H'.
      exists st'. split; [done|]. split; [split; [done|lia]|].
      exists k. rewrite (Hskip Ha). split; [lia|done].
Qed.

Lemma one_body_sample_kept n g idx :
  counted_steps n (λ j st, (gen_at n g j st ∧ 1 ≤ j) ∧
    ∃ k, 1 ≤ k < j ∧
      getitem (one_body_coefficients st) idx = Ret (sample k g)).
Proof.
  split.
  - intros p q j st Hp Hq [[Hat Hj] (k & Hk & G)].
    destruct (same_spin p q) eqn:Ha; simpl.
    + destruct (one_body_terms_writes_sample n g p q j st Hat Hp Hq Ha)
        as (st' & E & H' & _ & G1 & G2 & Ho).
      exists st'. split; [done|]. split; [split; [done|lia]|].
      destruct (decide (idx = [p; q])) as [->|N1];
        [exists j; split; [lia|done]|].
      destruct (decide (idx = [q; p])) as [->|N2];
        [exists j; split; [lia|done]|].
      exists k. rewrite Ho by done. split; [lia|done].
    + destruct (one_body_terms_at n g p q j st Hat Hp Hq) as (st' & E & H').
      destruct Hat as [Hsh Hg].
      destruct (one_body_terms_spec n p q st Hsh Hp Hq)
        as (st'' & E' & _ & _ & Hskip & _).
      rewrite E in E'. injection E' as <-. rewrite Ha in H'.
      exists st'. split; [done|]. split; [split; [done|lia]|].
      exists k. rewrite (Hskip Ha). split; [lia|done].
  - intros p q r s j st Hp Hq Hr Hs [[Hat Hj] (k & Hk & G)].
    destruct (two_body_terms_at n g p q r s j st Hat Hp Hq Hr Hs)
      as (st' & E & H').
    destruct Hat as [Hsh _].
    destruct (two_body_terms_spec n p q r s st Hsh Hp Hq Hr Hs)
      as (st'' & E' & _ & Hone & _).
    rewrite E in E'. injection E' as <-.
    exists st'. split; [done|]. split; [split; [done|lia]|].
    exists k. rewrite Hone. split; [lia|done].
Qed.

(** X3. In the operator the generator returns, every two-body entry
    with p <> q and r <> s holds the sample of one of the calls of
    [randn] the run makes after the constant's: the k-th sample of the
    source for some k with 1 <= k < generator_draws n, counting from
    0. *)
Theorem two_body_off_diagonal_sampled n g p q r s :
  p < n → q < n → r < n → s < n → p ≠ q → r ≠ s →
  ∃ op g' k, artificial_molecular_operator n g = Ret (op, g') ∧
    1 ≤ k < generator_draws n ∧
    getitem (two_body_tensor op) [p; q; r; s] = Ret (sample k g).
Proof.
  intros Hp Hq Hr Hs Hpq Hrs.
  set (I := λ j (st : gen_state), gen_at n g j st ∧ 1 ≤ j).
  set (K := λ j (st : gen_state),
         ∃ k, 1 ≤ k < j ∧
           getitem (two_body_coefficients st) [p; q; r; s]
           = Ret (sample k g)).
  assert (∃ st', generate_integrals n (gen_init n (randn g).2) = Ret (tt, st')
                 ∧ I (generator_draws n) st' ∧ K (generator_draws n) st')
    as (st' & E & _ & k & Hk & G).
  { rewrite generator_draws_by_loop.
    destruct (assigned_or_mirror p q r s Hpq Hrs) as [Ha|Ha].
    - apply (generate_integrals_visits_two I K n p q r s); try done.
      + apply gen_at_positive_steps.
      + apply two_body_sample_kept.
      + intros j st [Hat Hj]. rewrite Ha.
        destruct (two_body_terms_writes_sample n g p q r s j st Hat
                    Hp Hq Hr Hs Ha) as (st1 & E & H' & _ & G1 & _).
        exists st1. split; [done|]. split; [split; [done|simpl; lia]|].
        exists j. split; [simpl; lia|done].
      + split; [apply gen_init_at|lia].
    - apply (generate_integrals_visits_two I K n s r q p); try done.
      + apply gen_at_positive_steps.
      + apply two_body_sample_kept.
      + intros j st [Hat Hj]. rewrite Ha.
        destruct (two_body_terms_writes_sample n g s r q p j st Hat
                    Hs Hr Hq Hp Ha) as (st1 & E & H' & _ & _ & G2 & _).
        exists st1. split; [done|]. split; [split; [done|simpl; lia]|].
        exists j. split; [simpl; lia|done].
      + split; [apply gen_init_at|lia]. }
  eexists _, _, k. split; [by apply artificial_molecular_operator_of_loops|].
  done.
Qed.

(** X4. In the operator the generator returns, every one-body entry
    whose two indices have the same parity holds the sample of one of
    the calls of [randn] the run makes after the constant's: the k-th
    sample of the source for some k with 1 <= k < generator_draws n,
    counting from 0. *)
Theorem one_body_same_parity_sampled n g p q :
  p < n → q < n → p mod 2 = q mod 2 →
  ∃ op g' k, artificial_molecular_operator n g = Ret (op, g') ∧
    1 ≤ k < generator_draws n ∧
    getitem (one_body_tensor op) [p; q] = Ret (sample k g).
Proof.
  intros Hp Hq Hpar.
  assert (same_spin p q = true) as Ha.
  { unfold same_spin. rewrite Nat.leb_refl. simpl. by apply Nat.eqb_eq. }
  set (I := λ j (st : gen_state), gen_at n g j st ∧ 1 ≤ j).
  set (K := λ j (st : gen_state),
         ∃ k, 1 ≤ k < j ∧
           getitem (one_body_coefficients st) [p; q] = Ret (sample k g)).
  assert (∃ st', generate_integrals n (gen_init n (randn g).2) = Ret (tt, st')
                 ∧ I (generator_draws n) st' ∧ K (generator_draws n) st')
    as (st' & E & _ & k & Hk & G).
  { rewrite generator_draws_by_loop.
    apply (generate_integrals_visits_one I K n p q); try done.
    - apply gen_at_positive_steps.
    - apply one_body_sample_kept.
    - intros j st [Hat Hj]. rewrite Ha.
      destruct (one_body_terms_writes_sample n g p q j st Hat Hp Hq Ha)
        as (st1 & E & H' & _ & G1 & _).
      exists st1. split; [done|]. split; [split; [done|simpl; lia]|].
      exists j. split; [simpl; lia|done].
    - split; [apply gen_init_at|lia]. }
  eexists _, _, k. split; [by apply artificial_molecular_operator_of_loops|].
  done.
Qed.

End Written.

(** ** The symmetry the generator writes, the rule of assignment *)

Section Symmetry.
Context {NP : Numpy}.

(** Of a quadruple that is skipped the loop body makes no change. *)
Lemma two_body_terms_skips n p q r s st :
  gen_shaped n st → p < n → q < n → r < n → s < n →
  assigned p q r s = false →
  two_body_terms p q r s st = Ret (tt, st).
Proof.
  intros Hsh Hp Hq Hr Hs Ha.
  destruct (two_body_terms_spec n p q r s st Hsh Hp Hq Hr Hs)
    as (st' & E & _ & _ & Hskip & _).
  by rewrite <- (Hskip Ha) at 2.
Qed.

(** C3, as the code has it. For every positive mode count the two-body
    array of the returned operator is symmetric under the mirror
    (p, q, r, s) -> (s, r, q, p). The run makes [generator_draws n]
    calls of [randn], one per assigned quadruple beside those of the
    constant and the one-body terms; and of a quadruple with four or
    two distinct index values and its mirror, when they are two
    quadruples, at most one is assigned: from states of the right
    shapes, as all states of the run are, the loop body leaves the
    state as it is, source included, at one of the two. *)
Theorem two_body_symmetry_as_generated n g p q r s :
  0 < n → p < n → q < n → r < n → s < n →
  ∃ op g' v, artificial_molecular_operator n g = Ret (op, g') ∧
    getitem (two_body_tensor op) [p; q; r; s] = Ret v ∧
    getitem (two_body_tensor op) [s; r; q; p] = Ret v ∧
    g' = advance (generator_draws n) g ∧
    ([p; q; r; s] ≠ [s; r; q; p] →
     size (list_to_set [p; q; r; s] : gset nat) ≠ 3 →
     assigned p q r s && assigned s r q p = false ∧
     ∀ st1 st2, gen_shaped n st1 → gen_shaped n st2 →
       ∃ st1' st2',
         two_body_terms p q r s st1 = Ret (tt, st1') ∧
         two_body_terms s r q p st2 = Ret (tt, st2') ∧
         (st1' = st1 ∨ st2' = st2)).
Proof.
  intros _ Hp Hq Hr Hs.
  destruct (two_body_mirror_all n g) as (op & g' & E & HP).
  destruct (HP p q r s Hp Hq Hr Hs) as (v & G1 & G2).
  destruct (generator_draws_of_run n g) as (op' & g'' & E' & Hg).
  rewrite E in E'. injection E' as <- <-.
  exists op, g', v. do 4 (split; [done|]). intros Hself H3.
  assert (assigned p q r s && assigned s r q p = false) as Hone.
  { destruct (decide (p = q)) as [->|Hpq].
    { unfold assigned at 1. by rewrite Nat.eqb_refl. }
    destruct (decide (r = s)) as [->|Hrs].
    { unfold assigned at 1. by rewrite Nat.eqb_refl, orb_true_r. }
    rewrite (assigned_xor_mirror p q r s) by done.
    by destruct (assigned s r q p). }
  split; [done|]. intros st1 st2 Hst1 Hst2.
  destruct (two_body_terms_spec n p q r s st1 Hst1 Hp Hq Hr Hs)
    as (st1' & E1 & _).
  destruct (two_body_terms_spec n s r q p st2 Hst2 Hs Hr Hq Hp)
    as (st2' & E2 & _).
  exists st1', st2'. do 2 (split; [done|]).
  apply andb_false_iff in Hone as [Ha|Ha].
  - left. rewrite (two_body_terms_skips n p q r s st1) in E1 by done.
    by injection E1.
  - right. rewrite (two_body_terms_skips n s r q p st2) in E2 by done.
    by injection E2.
Qed.

(** X1. The generator never raises [IndexError] and never runs out of
    fuel: every index used at lines 39-40 and 66-68 is within the
    bounds of the arrays of lines 29-31.  When it returns, the constant
    of the operator is the first sample of the source and the arrays
    have shapes (n, n) and (n, n, n, n) with n^2 and n^4 entries. *)
Theorem generator_raises_no_index_error n g :
  artificial_molecular_operator n g ≠ Raise IndexError ∧
  artificial_molecular_operator n g ≠ OutOfFuel ∧
  ∀ op g', artificial_molecular_operator n g = Ret (op, g') →
    constant op = (randn g).1 ∧
    shape (one_body_tensor op) = [n; n] ∧
    length (data (one_body_tensor op)) = n * n ∧
    shape (two_body_tensor op) = [n; n; n; n] ∧
    length (data (two_body_tensor op)) = n * n * n * n.
Proof.
  destruct (artificial_molecular_operator_returns n g)
    as (op & g' & E & Hc & [S1 L1] & [S2 L2]).
  rewrite E. split; [done|]. split; [done|].
  intros op' g'' [= <- <-]. simpl in L1, L2.
  repeat split; try done; lia.
Qed.

End Symmetry.

(** X5. The rule of lines 46-63: the loop body reaches the assignment
    at (p, q, r, s) exactly when p <> q and r <> s, and, if the four
    indices are pairwise distinct, min(p, q) < min(r, s), and, if
    (r, s) = (p, q), p < q.  A quadruple (p, q, q, p) and a quadruple
    with three distinct values are always assigned. *)
Theorem assigned_rule p q r s :
  assigned p q r s = true ↔
  p ≠ q ∧ r ≠ s ∧
  (p ≠ r → p ≠ s → q ≠ r → q ≠ s → Nat.min p q < Nat.min r s) ∧
  (r = p → s = q → p < q).
Proof.
  split.
  - intros Ha. destruct (assigned_off_diagonal _ _ _ _ Ha) as [Hpq Hrs].
    rewrite assigned_eq in Ha by done. apply negb_true_iff in Ha.
    split; [done|]. split; [done|]. split.
    + intros. rewrite skip_conjugate_four in Ha by done.
      apply bool_decide_eq_false in Ha. lia.
    + intros -> ->. rewrite skip_conjugate_repeat in Ha by done.
      apply bool_decide_eq_false in Ha. lia.
  - intros (Hpq & Hrs & H4 & H2). rewrite assigned_eq by done.
    apply negb_true_iff.
    destruct (decide (p ≠ r ∧ p ≠ s ∧ q ≠ r ∧ q ≠ s)) as [(?&?&?&?)|Hd].
    + rewrite skip_conjugate_four by done.
      apply bool_decide_eq_false. specialize (H4 ltac:(done) ltac:(done)
        ltac:(done) ltac:(done)). lia.
    + destruct (decide ((r = p ∧ s = q) ∨ (r = q ∧ s = p)))
        as [[[-> ->]|[-> ->]]|Hn].
      * rewrite skip_conjugate_repeat by done.
        apply bool_decide_eq_false. specialize (H2 eq_refl eq_refl). lia.
      * by rewrite skip_conjugate_self.
      * rewrite skip_conjugate_three; [done|]. by apply unique_indices_three.
Qed.

(** ** The draws behind the operator strings *)

Section Sampling.
Context {NP : Numpy}.
Implicit Types (st : bench_state) (g : rng) (op prev : operator) (w : which).

Lemma kth_draw_succ n k g :
  kth_draw n k (after_draws n 1 g) = kth_draw n (S k) g.
Proof.
  unfold kth_draw. change (after_draws n 1 g) with (draw_operator n g).2.
  by rewrite after_draws_succ.
Qed.

Lemma after_draws_shift n k g :
  after_draws n k (after_draws n 1 g) = after_draws n (S k) g.
Proof.
  change (after_draws n 1 g) with (draw_operator n g).2.
  by rewrite after_draws_succ.
Qed.

Lemma bs_rng_with_rng g st : bs_rng (with_rng g st) = g.
Proof. done. Qed.

(** The loop entered on a collision returns the first later draw that
    differs from the last operator, having consumed the draws up to
    it. *)
Lemma redraw_first_new n w prev k :
  0 < n → ∀ fuel st,
  last (operators_of w st) = Some prev →
  (∀ j, j < k → kth_draw n j (bs_rng st) = prev) →
  kth_draw n k (bs_rng st) ≠ prev →
  k < fuel →
  redraw_while_equal fuel n w prev st =
    Ret (kth_draw n k (bs_rng st),
         with_rng (after_draws n (S k) (bs_rng st)) st).
Proof.
  intros Hn. induction k as [|k IH]; intros fuel st Hl Heq Hne Hf;
    (destruct fuel as [|fuel]; [lia|]); rewrite redraw_again by done.
  - apply (redraw_exit _ _ _ _ prev); [|done].
    by rewrite operators_of_with_rng.
  - rewrite (Heq 0) by lia.
    rewrite IH; rewrite ?bs_rng_with_rng.
    + by rewrite kth_draw_succ, after_draws_shift.
    + by rewrite operators_of_with_rng.
    + intros j Hj. rewrite kth_draw_succ. apply Heq. lia.
    + by rewrite kth_draw_succ.
    + lia.
Qed.

(** X6. Rejection sampling, exactly: when the first [k] operators the
    source yields repeat the last operator of the string and the next
    one does not, lines 126-131 append that next one, leave the other
    string alone, and leave the source [k + 1] operator draws further;
    [k] units of fuel pay for the [k] redraws. *)
Theorem next_operator_first_new n w st prev k fuel :
  0 < n → last (operators_of w st) = Some prev →
  (∀ j, j < k → kth_draw n j (bs_rng st) = prev) →
  kth_draw n k (bs_rng st) ≠ prev →
  k ≤ fuel →
  ∃ st', next_operator fuel n w st = Ret (tt, st') ∧
    operators_of w st' = operators_of w st ++ [kth_draw n k (bs_rng st)] ∧
    operators_of (other w) st' = operators_of (other w) st ∧
    bs_rng st' = after_draws n (S k) (bs_rng st).
Proof.
  intros Hn Hl Heq Hne Hf. unfold next_operator.
  rewrite (bind_run _ _ _ _ _ (random_operator_run n st Hn)).
  destruct k as [|k].
  - rewrite (bind_run _ _ _ _ _
      (redraw_exit fuel n w _ prev _
         ltac:(by rewrite operators_of_with_rng) Hne)).
    eexists. split; [done|]. by destruct w.
  - rewrite (Heq 0) by lia.
    rewrite (bind_run _ _ _ _ _
      (redraw_first_new n w prev k Hn fuel _
         ltac:(by rewrite operators_of_with_rng)
         ltac:(intros j Hj; rewrite bs_rng_with_rng, kth_draw_succ;
               apply Heq; lia)
         ltac:(by rewrite bs_rng_with_rng, kth_draw_succ)
         ltac:(lia))).
    eexists. split; [done|].
    rewrite !bs_rng_with_rng, kth_draw_succ, after_draws_shift. by destruct w.
Qed.

(** X9. On a source that yields nothing but the last operator of the
    string, lines 126-131 never finish: on every amount of fuel the
    redraw loop is still running, and nothing is raised. *)
Theorem next_operator_spins n w st prev :
  0 < n → last (operators_of w st) = Some prev →
  (∀ k, kth_draw n k (bs_rng st) = prev) →
  ∀ fuel, next_operator fuel n w st = OutOfFuel.
Proof.
  intros Hn Hl Hall fuel. unfold next_operator.
  rewrite (bind_run _ _ _ _ _ (random_operator_run n st Hn)).
  rewrite (Hall 0).
  assert (∀ st1, last (operators_of w st1) = Some prev →
            (∀ k, kth_draw n k (bs_rng st1) = prev) →
            redraw_while_equal fuel n w prev st1 = OutOfFuel) as Hspin.
  { induction fuel as [|fuel IH]; intros st1 Hl1 Hall1.
    - rewrite redraw_unfold, Hl1. by rewrite bool_decide_eq_true_2.
    - rewrite redraw_again by done. rewrite (Hall1 0). apply IH.
      + by rewrite operators_of_with_rng.
      + intros k. rewrite bs_rng_with_rng, kth_draw_succ. apply Hall1. }
  unfold mbind, M_bind, bind. rewrite Hspin; [done| |].
  - by rewrite operators_of_with_rng.
  - intros k. rewrite bs_rng_with_rng, kth_draw_succ. apply Hall.
Qed.

Lemma initial_operators_exact n g st0 g0 :
  initial_operators n g = Ret (st0, g0) →
  0 < n ∧ operators_a st0 = [kth_draw n 0 g] ∧
  operators_b st0 = [kth_draw n 1 g] ∧ bs_rng st0 = after_draws n 2 g.
Proof.
  unfold initial_operators, kth_draw, after_draws, draw_operator. simpl.
  destruct (Nat.eqb_spec n 0) as [->|Hn]; [done|].
  destruct (randint n g) as [ma g1]. simpl.
  destruct (randint 2 g1) as [fa g2]. simpl.
  destruct (randint n g2) as [mb g3]. simpl.
  destruct (randint 2 g3) as [fb g4]. simpl.
  intros [= <- <-]. split; [lia|done].
Qed.

(** X8. The loop of line 123 only appends: whatever the term length,
    the string of the first term starts with the first operator the
    source yields and the string of the second term with the second;
    and on a source that eventually yields a different pair, with at
    least one mode, the benchmark does build the terms. *)
Theorem terms_start_with_first_draws n L g :
  (∀ fuel ta tb g',
     benchmark_fermion_terms fuel n L g = Ret ((ta, tb), g') →
     head (term_operators ta) = Some (kth_draw n 0 g) ∧
     head (term_operators tb) = Some (kth_draw n 1 g)) ∧
  (0 < n → fair_source n →
   ∃ fuel ta tb g', benchmark_fermion_terms fuel n L g = Ret ((ta, tb), g')).
Proof.
  split; [|by apply benchmark_fermion_terms_enough_fuel].
  intros fuel ta tb g'
    (st0 & g0 & st1 & E0 & E1 & -> & ->)%benchmark_fermion_terms_inv.
  apply initial_operators_exact in E0 as (_ & Ha & Hb & _).
  apply (for_each_counted
    (λ _ st, head (operators_a st) = Some (kth_draw n 0 g) ∧
             head (operators_b st) = Some (kth_draw n 1 g))
    _ _ ) with (k := 0) (st := st0) in E1; [done| |].
  - intros _ _ st st' [Ia Ib]
      (pa & x & pb & y & La & Na & -> & Lb & Nb & ->)%iteration_appends.
    destruct (operators_a st), (operators_b st); done.
  - by rewrite Ha, Hb.
Qed.

Lemma draw_operator_valid n g :
  (∀ high g0, 0 < high → (randint high g0).1 < high) →
  0 < n → valid_operator n (draw_operator n g).1.
Proof.
  intros Hrange Hn. unfold draw_operator.
  pose proof (Hrange n g Hn) as H1.
  destruct (randint n g) as [mode g1].
  pose proof (Hrange 2 g1 ltac:(lia)) as H2.
  destruct (randint 2 g1) as [flag g2]. by split.
Qed.

(** What the loop returns is its candidate or a draw of the source. *)
Lemma redraw_returns_drawn fuel n w op st op' st' :
  redraw_while_equal fuel n w op st = Ret (op', st') →
  op' = op ∨ ∃ g0, 0 < n ∧ op' = (draw_operator n g0).1.
Proof.
  revert op st. induction fuel as [|fuel IH]; intros op st;
    rewrite redraw_unfold;
    destruct (last (operators_of w st)) as [prev|]; try done;
    case_bool_decide; try done.
  - intros [= <- <-]. by left.
  - intros (op1 & st1 & E1 & E2)%bind_inv.
    apply random_operator_inv in E1 as (Hn & -> & ->).
    apply IH in E2 as [->|?]; [|by right].
    right. by eexists.
  - intros [= <- <-]. by left.
Qed.

Lemma next_operator_appends_drawn fuel n w st st' :
  next_operator fuel n w st = Ret (tt, st') →
  ∃ g0, 0 < n ∧
    operators_of w st' = operators_of w st ++ [(draw_operator n g0).1] ∧
    operators_of (other w) st' = operators_of (other w) st.
Proof.
  unfold next_operator.
  intros (op0 & st1 & E1 & (op & st2 & E2 & E3)%bind_inv)%bind_inv.
  apply random_operator_inv in E1 as (Hn & -> & ->).
  pose proof (redraw_returns_new _ _ _ _ _ _ _ E2) as (_ & g' & _ & _ & ->).
  apply redraw_returns_drawn in E2.
  apply operators_of_append in E3 as [Ha Hb].
  rewrite !operators_of_with_rng in Ha, Hb.
  destruct E2 as [->|(g0 & _ & ->)]; by eexists.
Qed.

(** X7. When [randint high] stays below [high], as numpy's does, every
    operator of both terms the benchmark builds is a pair (mode, flag)
    with mode < n_qubits and flag < 2; and on a source that eventually
    yields a different pair, with at least one mode, the benchmark
    does build the terms. *)
Theorem terms_hold_valid_operators n L g :
  (∀ high g0, 0 < high → (randint high g0).1 < high) →
  (∀ fuel ta tb g',
     benchmark_fermion_terms fuel n L g = Ret ((ta, tb), g') →
     Forall (valid_operator n) (term_operators ta) ∧
     Forall (valid_operator n) (term_operators tb)) ∧
  (0 < n → fair_source n →
   ∃ fuel ta tb g', benchmark_fermion_terms fuel n L g = Ret ((ta, tb), g')).
Proof.
  intros Hrange. split; [|by apply benchmark_fermion_terms_enough_fuel].
  intros fuel ta tb g'
    (st0 & g0 & st1 & E0 & E1 & -> & ->)%benchmark_fermion_terms_inv.
  apply initial_operators_exact in E0 as (Hn & Ha & Hb & _).
  apply (for_each_counted
    (λ _ st, Forall (valid_operator n) (operators_a st) ∧
             Forall (valid_operator n) (operators_b st))
    _ _ ) with (k := 0) (st := st0) in E1; [done| |].
  - intros _ _ st st' [Ia Ib] (u & st2 & E2 & E3)%bind_inv. destruct u.
    apply next_operator_appends_drawn in E2 as (ga & _ & Aa & Ab).
    apply next_operator_appends_drawn in E3 as (gb & _ & Bb & Ba).
    simpl in *. rewrite Ba, Aa, Bb, Ab.
    split; apply Forall_app; (split; [done|]);
      apply Forall_singleton; by apply draw_operator_valid.
  - rewrite Ha, Hb. unfold kth_draw.
    split; apply Forall_singleton; by apply draw_operator_valid.
Qed.

End Sampling.

(** ** More runs on the counting source and on the stuck source *)

Section MoreRuns.

(** The counting source keeps [randint high] below [high]. *)
Lemma counting_source_in_range high (g0 : @rng counting_source) :
  0 < high → (@randint counting_source high g0).1 < high.
Proof.
  intros H. change ((g0 / 8) mod high < high).
  apply Nat.mod_upper_bound. lia.
Qed.

(** The generator draws 6 samples on 2 modes and 39 on 3. *)
Example generator_draws_small :
  generator_draws 2 = 6 ∧ generator_draws 3 = 39.
Proof. split; by vm_compute. Qed.

(** C3 at mode count 4 and the four-valued quadruple (0, 1, 2, 3),
    whose mirror (3, 2, 1, 0) is another quadruple. *)
Lemma two_body_symmetry_as_generated_witness :
  (0 < 4 ∧ 0 < 4 ∧ 1 < 4 ∧ 2 < 4 ∧ 3 < 4 ∧
   [0; 1; 2; 3] ≠ [3; 2; 1; 0] ∧
   size (list_to_set [0; 1; 2; 3] : gset nat) ≠ 3) ∧
  ∃ op g' v, @artificial_molecular_operator counting_source 4 0 = Ret (op, g') ∧
    getitem (two_body_tensor op) [0; 1; 2; 3] = Ret v ∧
    getitem (two_body_tensor op) [3; 2; 1; 0] = Ret v ∧
    g' = @advance counting_source (generator_draws 4) 0 ∧
    assigned 0 1 2 3 && assigned 3 2 1 0 = false ∧
    ∀ st1 st2, @gen_shaped counting_source 4 st1 → gen_shaped 4 st2 →
      ∃ st1' st2',
        two_body_terms 0 1 2 3 st1 = Ret (tt, st1') ∧
        two_body_terms 3 2 1 0 st2 = Ret (tt, st2') ∧
        (st1' = st1 ∨ st2' = st2).
Proof.
  assert ([0; 1; 2; 3] ≠ [3; 2; 1; 0]) as Hself by discriminate.
  assert (size (list_to_set [0; 1; 2; 3] : gset nat) ≠ 3) as H3
    by (vm_compute; discriminate).
  split; [repeat split; try lia; done|].
  destruct (two_body_symmetry_as_generated (NP:=counting_source) 4 0 0 1 2 3
              ltac:(lia) ltac:(lia) ltac:(lia) ltac:(lia) ltac:(lia))
    as (op & g' & v & E & G1 & G2 & Hg & Hno).
  exists op, g', v. do 4 (split; [done|]). exact (Hno Hself H3).
Defined.

(** X1 at mode count 2. *)
Lemma generator_raises_no_index_error_witness :
  @artificial_molecular_operator counting_source 2 0 ≠ Raise IndexError ∧
  @artificial_molecular_operator counting_source 2 0 ≠ OutOfFuel ∧
  ∃ op g', @artificial_molecular_operator counting_source 2 0 = Ret (op, g') ∧
    constant op = (@randn counting_source 0).1 ∧
    shape (one_body_tensor op) = [2; 2] ∧
    length (data (one_body_tensor op)) = 2 * 2 ∧
    shape (two_body_tensor op) = [2; 2; 2; 2] ∧
    length (data (two_body_tensor op)) = 2 * 2 * 2 * 2.
Proof.
  destruct (generator_raises_no_index_error (NP:=counting_source) 2 0)
    as (Hi & Hf & Hret).
  split; [exact Hi|]. split; [exact Hf|].
  eexists _, _. split; [by vm_compute|]. eapply Hret. by vm_compute.
Defined.

(** X3 at mode count 3 and the three-valued quadruple (0, 1, 0, 2). *)
Lemma two_body_off_diagonal_sampled_witness :
  (0 < 3 ∧ 1 < 3 ∧ 0 < 3 ∧ 2 < 3 ∧ 0 ≠ 1 ∧ 0 ≠ 2) ∧
  ∃ op g' k, @artificial_molecular_operator counting_source 3 0 = Ret (op, g') ∧
    1 ≤ k < generator_draws 3 ∧
    getitem (two_body_tensor op) [0; 1; 0; 2]
    = Ret (@sample counting_source k 0).
Proof.
  split; [lia|].
  apply (two_body_off_diagonal_sampled (NP:=counting_source) 3 0 0 1 0 2); lia.
Defined.

(** X4 at mode count 3 and the pair (0, 2). *)
Lemma one_body_same_parity_sampled_witness :
  (0 < 3 ∧ 2 < 3 ∧ 0 mod 2 = 2 mod 2) ∧
  ∃ op g' k, @artificial_molecular_operator counting_source 3 0 = Ret (op, g') ∧
    1 ≤ k < generator_draws 3 ∧
    getitem (one_body_tensor op) [0; 2] = Ret (@sample counting_source k 0).
Proof.
  split; [by repeat split; lia|].
  apply (one_body_same_parity_sampled (NP:=counting_source) 3 0 0 2);
    [lia|lia|reflexivity].
Defined.

(** X5 at (0, 1, 2, 3), read from right to left. *)
Lemma assigned_rule_witness :
  (0 ≠ 1 ∧ 2 ≠ 3 ∧ Nat.min 0 1 < Nat.min 2 3) ∧ assigned 0 1 2 3 = true.
Proof.
  split; [by repeat split; simpl; lia|].
  apply (proj2 (assigned_rule 0 1 2 3)).
  split; [lia|]. split; [lia|]. split; [simpl; lia|lia].
Defined.

(** X6 on the collision state: two draws repeat (0, 0), the third is
    (1, 1). *)
Lemma next_operator_first_new_witness :
  (0 < 3 ∧ last (operators_of TermA collision_state) = Some (0, 0) ∧
   (∀ j, j < 2 → @kth_draw counting_source 3 j 4 = (0, 0)) ∧
   @kth_draw counting_source 3 2 4 ≠ (0, 0) ∧ 2 ≤ 2) ∧
  ∃ st', @next_operator counting_source 2 3 TermA collision_state
           = Ret (tt, st') ∧
    operators_of TermA st' = [(0, 0)] ++ [@kth_draw counting_source 3 2 4] ∧
    operators_of (other TermA) st' = [(0, 0)] ∧
    bs_rng st' = @after_draws counting_source 3 3 4.
Proof.
  assert (∀ j, j < 2 → @kth_draw counting_source 3 j 4 = (0, 0)) as Hrep.
  { intros [|[|j]] Hj; [reflexivity|reflexivity|lia]. }
  assert (@kth_draw counting_source 3 2 4 ≠ (0, 0)) as Hnew.
  { vm_compute. discriminate. }
  split;
    [split; [lia|split; [reflexivity|split; [exact Hrep|split; [exact Hnew|lia]]]]|].
  apply (next_operator_first_new (NP:=counting_source) 3 TermA collision_state
           (0, 0) 2 2); [lia|reflexivity|exact Hrep|exact Hnew|lia].
Defined.

(** X7 at 3 modes and term length 4. *)
Lemma terms_hold_valid_operators_witness :
  ((∀ high g0, 0 < high → (@randint counting_source high g0).1 < high) ∧
   0 < 3 ∧ @fair_source counting_source 3) ∧
  (∀ fuel ta tb g',
     @benchmark_fermion_terms counting_source fuel 3 4 0 = Ret ((ta, tb), g') →
     Forall (valid_operator 3) (term_operators ta) ∧
     Forall (valid_operator 3) (term_operators tb)) ∧
  ∃ fuel ta tb g',
    @benchmark_fermion_terms counting_source fuel 3 4 0 = Ret ((ta, tb), g').
Proof.
  pose proof (terms_hold_valid_operators (NP:=counting_source) 3 4 0
                counting_source_in_range) as [Hsafe Hlive].
  split; [|split].
  - split; [exact counting_source_in_range|].
    split; [lia|apply counting_source_fair].
  - exact Hsafe.
  - apply Hlive; [lia|apply counting_source_fair].
Defined.

(** X8 at 3 modes and term length 4. *)
Lemma terms_start_with_first_draws_witness :
  (0 < 3 ∧ @fair_source counting_source 3) ∧
  (∀ fuel ta tb g',
     @benchmark_fermion_terms counting_source fuel 3 4 0 = Ret ((ta, tb), g') →
     head (term_operators ta) = Some (@kth_draw counting_source 3 0 0) ∧
     head (term_operators tb) = Some (@kth_draw counting_source 3 1 0)) ∧
  ∃ fuel ta tb g',
    @benchmark_fermion_terms counting_source fuel 3 4 0 = Ret ((ta, tb), g').
Proof.
  pose proof (terms_start_with_first_draws (NP:=counting_source) 3 4 0)
    as [Hsafe Hlive].
  split; [|split].
  - split; [lia|apply counting_source_fair].
  - exact Hsafe.
  - apply Hlive; [lia|apply counting_source_fair].
Defined.

(** X9 on the stuck source. *)
Lemma next_operator_spins_witness :
  (0 < 3 ∧ last (operators_of TermA stuck_state) = Some (0, 0) ∧
   ∀ k, @kth_draw stuck_source 3 k 4 = (0, 0)) ∧
  ∀ fuel, @next_operator stuck_source fuel 3 TermA stuck_state = OutOfFuel.
Proof.
  assert (∀ k, @kth_draw stuck_source 3 k 4 = (0, 0)) as Hall
    by (intros k; reflexivity).
  split; [split; [lia|split; [reflexivity|exact Hall]]|].
  apply (next_operator_spins (NP:=stuck_source) 3 TermA stuck_state (0, 0));
    [lia|reflexivity|exact Hall].
Defined.

End MoreRuns.
